(** * RBF descriptor (ml-iap/descriptor.py): descriptor vector and Jacobian

    The module computes, for one atom, the radial-basis-function descriptor
    [p] of its neighbours and the Jacobian [q] of [p] with respect to the
    neighbours' relative coordinates.  The development embeds the numeric
    kernel in exact arithmetic: inputs are real numbers, and every value the
    NumPy code computes is an extended real ([xreal]), so that the results of
    dividing by zero (infinities and NaN) are values, as they are in NumPy,
    while the places where Python itself raises ([assert], a zero step of
    [np.arange], the scalar division [-1 / cutoff]) are errors.  The dataset
    driver [get_descriptor_data] is embedded with the neighbour list builder
    of the [neighborlist] module as a parameter, and the test-input
    generator with the drawn random array as an argument. *)

From Stdlib Require Import Reals Lra Lia List ZArith Bool Sorted Permutation.
Import ListNotations.
Open Scope R_scope.

(** ** Errors raised by the Python code *)

Inductive exn : Type :=
| AssertionError
| ZeroDivisionError.

Inductive result (A : Type) : Type :=
| Ok (a : A)
| Raise (e : exn).
Arguments Ok {A} a.
Arguments Raise {A} e.

Definition bind {A B : Type} (m : result A) (f : A -> result B) : result B :=
  match m with
  | Ok a => f a
  | Raise e => Raise e
  end.

Notation "x <- m ;; k" := (bind m (fun x => k))
  (at level 61, m at next level, right associativity).

(** ** Values of NumPy arrays: extended reals

    A float64 entry is a finite real, an infinity or NaN.  Arithmetic on
    finite values is exact; the other cases follow IEEE 754 (a zero divisor
    is taken as [+0]). *)

Inductive xreal : Type :=
| Fin (x : R)
| PInf
| NInf
| NaN.

Definition xopp (a : xreal) : xreal :=
  match a with
  | Fin x => Fin (- x)
  | PInf => NInf
  | NInf => PInf
  | NaN => NaN
  end.

Definition xadd (a b : xreal) : xreal :=
  match a, b with
  | Fin x, Fin y => Fin (x + y)
  | NaN, _ | _, NaN => NaN
  | PInf, NInf | NInf, PInf => NaN
  | PInf, _ | _, PInf => PInf
  | NInf, _ | _, NInf => NInf
  end.

Definition xsub (a b : xreal) : xreal := xadd a (xopp b).

(** An infinity scaled by the finite factor [x]. *)
Definition xscale_inf (x : R) (inf : xreal) : xreal :=
  if Req_dec_T x 0 then NaN
  else if Rlt_dec 0 x then inf else xopp inf.

Definition xmul (a b : xreal) : xreal :=
  match a, b with
  | Fin x, Fin y => Fin (x * y)
  | NaN, _ | _, NaN => NaN
  | Fin x, inf => xscale_inf x inf
  | inf, Fin y => xscale_inf y inf
  | PInf, PInf | NInf, NInf => PInf
  | PInf, NInf | NInf, PInf => NInf
  end.

Definition xdiv (a b : xreal) : xreal :=
  match a, b with
  | Fin x, Fin y =>
      if Req_dec_T y 0 then
        if Req_dec_T x 0 then NaN
        else if Rlt_dec 0 x then PInf else NInf
      else Fin (x / y)
  | NaN, _ | _, NaN => NaN
  | Fin _, _ => Fin 0
  | inf, Fin y => if Rle_dec 0 y then inf else xopp inf
  | _, _ => NaN
  end.

Definition xexp (a : xreal) : xreal :=
  match a with
  | Fin x => Fin (exp x)
  | PInf => PInf
  | NInf => Fin 0
  | NaN => NaN
  end.

Definition xsqrt (a : xreal) : xreal :=
  match a with
  | Fin x => if Rlt_dec x 0 then NaN else Fin (sqrt x)
  | PInf => PInf
  | NInf | NaN => NaN
  end.

(** [a ** 2] *)
Definition xsqr (a : xreal) : xreal := xmul a a.

(** [.sum()] over one axis. *)
Definition xsum (l : list xreal) : xreal := fold_right xadd (Fin 0) l.

Definition Rsum (l : list R) : R := fold_right Rplus 0 l.

Definition is_finite (a : xreal) : Prop :=
  match a with Fin _ => True | _ => False end.

Definition to_R (a : xreal) : R :=
  match a with Fin x => x | _ => 0 end.

(** ** Rows of three coordinates *)

Record vec3 (A : Type) : Type := mk3 { vx : A; vy : A; vz : A }.
Arguments mk3 {A} vx vy vz.
Arguments vx {A} v.
Arguments vy {A} v.
Arguments vz {A} v.

Inductive axis : Type := X | Y | Z.

Definition coord {A : Type} (c : axis) (v : vec3 A) : A :=
  match c with X => vx v | Y => vy v | Z => vz v end.

Definition set_coord {A : Type} (c : axis) (t : A) (v : vec3 A) : vec3 A :=
  match c with
  | X => mk3 t (vy v) (vz v)
  | Y => mk3 (vx v) t (vz v)
  | Z => mk3 (vx v) (vy v) t
  end.

Definition vmap {A B : Type} (f : A -> B) (v : vec3 A) : vec3 B :=
  mk3 (f (vx v)) (f (vy v)) (f (vz v)).

Definition vmap2 {A B C : Type} (f : A -> B -> C) (u : vec3 A) (v : vec3 B)
  : vec3 C :=
  mk3 (f (vx u) (vx v)) (f (vy u) (vy v)) (f (vz u) (vz v)).

(** [np.linalg.norm(r, axis=1)], one row. *)
Definition norm3 (v : vec3 R) : R :=
  sqrt (vx v ^ 2 + vy v ^ 2 + vz v ^ 2).

(** Elementwise combination of two arrays of the same shape. *)
Fixpoint map2 {A B C : Type} (f : A -> B -> C) (l1 : list A) (l2 : list B)
  : list C :=
  match l1, l2 with
  | a :: t1, b :: t2 => f a b :: map2 f t1 t2
  | _, _ => []
  end.

(** Row [j] of the neighbour array with coordinate [c] replaced by [t]. *)
Fixpoint upd_coord (r : list (vec3 R)) (j : nat) (c : axis) (t : R)
  : list (vec3 R) :=
  match r, j with
  | [], _ => []
  | v :: r', O => set_coord c t v :: r'
  | v :: r', S j' => v :: upd_coord r' j' c t
  end.

Definition Rltb (a b : R) : bool := if Rlt_dec a b then true else false.

(** ** The functions of descriptor.py *)

(** [(1 - d / cutoff) ** 2], elementwise on the array [d]. *)
Definition smooth_cutoff (d : list R) (cutoff : R) : list xreal :=
  map (fun dj => xsqr (xsub (Fin 1) (xdiv (Fin dj) (Fin cutoff)))) d.

(** [2 * (-1 / cutoff) * (1 - d / cutoff)]: the factor [-1 / cutoff] is a
    division of Python floats, which raises for a zero [cutoff]; the rest is
    elementwise on [d]. *)
Definition smooth_cutoff_derivative (d : list R) (cutoff : R)
  : result (list xreal) :=
  if Req_dec_T cutoff 0 then Raise ZeroDivisionError
  else Ok (map (fun dj => xmul (Fin (2 * (-1 / cutoff)))
                               (xsub (Fin 1) (xdiv (Fin dj) (Fin cutoff)))) d).

(** [np.exp(-0.5 * (x / beta) ** 2)], one entry. *)
Definition gaussian1 (x beta : R) : xreal :=
  xexp (xmul (Fin (-0.5)) (xsqr (xdiv (Fin x) (Fin beta)))).

(** [gaussian], elementwise on the two-dimensional array [x]. *)
Definition gaussian (x : list (list R)) (beta : R) : list (list xreal) :=
  map (map (fun xkj => gaussian1 xkj beta)) x.

(** [-(x / beta**2) * gaussian(x, beta)], elementwise. *)
Definition gaussian_derivative (x : list (list R)) (beta : R)
  : list (list xreal) :=
  map (map (fun xkj =>
              xmul (xopp (xdiv (Fin xkj) (Fin (beta ^ 2)))) (gaussian1 xkj beta)))
      x.

(** The array [np.arange(0.0, cutoff, alpha)] builds for a non-zero step:
    [ceil((cutoff - 0.0) / alpha)] points [0.0 + k * alpha], none when that
    count is not positive. *)
Definition grid_points (cutoff alpha : R) : list R :=
  map (fun k => 0 + INR k * alpha)
      (seq 0 (Z.to_nat (Zceil ((cutoff - 0) / alpha)))).

(** [np.arange(0.0, cutoff, alpha)]: the length is computed by a division
    of Python floats, which raises for a zero step. *)
Definition radial_grid (cutoff alpha : R) : result (list R) :=
  if Req_dec_T alpha 0 then Raise ZeroDivisionError
  else Ok (grid_points cutoff alpha).

(** [np.linalg.norm(p)] for a one-dimensional array. *)
Definition xnorm (p : list xreal) : xreal := xsqrt (xsum (map xsqr p)).

(** [(p[..., None, None] * q).sum(axis=0)]: for each neighbour and
    coordinate, the sum over the grid axis; [n] is the number of neighbours. *)
Definition sum_axis0 (n : nat) (m : list (list (vec3 xreal)))
  : list (vec3 xreal) :=
  fold_right (map2 (vmap2 xadd)) (repeat (mk3 (Fin 0) (Fin 0) (Fin 0)) n) m.

(** The normalisation branch of [rbf_descriptor]. *)
Definition normalize (n : nat) (p : list xreal) (q : list (list (vec3 xreal)))
  : list xreal * list (list (vec3 xreal)) :=
  let norm := xnorm p in
  let p1 := map (fun pk => xdiv pk norm) p in
  let q1 := map (map (vmap (fun e => xdiv e norm))) q in
  let s := sum_axis0 n (map2 (fun pk qk => map (vmap (xmul pk)) qk) p1 q1) in
  let q2 := map2 (fun pk qk =>
                    map2 (fun qkj sj => vmap2 xsub qkj (vmap (xmul pk) sj)) qk s)
                 p1 q1 in
  (p1, q2).

Definition rbf_descriptor (r : list (vec3 R)) (cutoff alpha beta : R)
  (normalized : bool) : result (list xreal * list (list (vec3 xreal))) :=
  (* Descriptor: p *)
  let d := map norm3 r in
  if forallb (fun dj => Rltb dj cutoff) d then
    let c := smooth_cutoff d cutoff in
    grid <- radial_grid cutoff alpha ;;
    let x := map (fun xk => map (fun dj => xk - dj) d) grid in
    let g := gaussian x beta in
    let p := map (fun gk => xsum (map2 xmul gk c)) g in
    (* Jacobian: q *)
    let D_d_r := map2 (fun rj dj => vmap (fun e => xdiv (Fin e) (Fin dj)) rj) r d in
    D_c_d <- smooth_cutoff_derivative d cutoff ;;
    let D_c_r := map2 (fun a u => vmap (xmul a) u) D_c_d D_d_r in
    let D_g_x := gaussian_derivative x beta in
    let D_g_r :=
      map (fun row => map2 (fun a u => vmap (xmul (xopp a)) u) row D_d_r) D_g_x in
    let q :=
      map2 (fun Dgr_k g_k =>
              map2 (fun lhs rhs => vmap2 xadd lhs rhs)
                   (map2 (fun u cj => vmap (fun e => xmul e cj) u) Dgr_k c)
                   (map2 (fun gkj u => vmap (xmul gkj) u) g_k D_c_r))
           D_g_r g in
    (* Normalize *)
    if normalized then Ok (normalize (length r) p q) else Ok (p, q)
  else Raise AssertionError.

(** ** The formulas of the specification, over the reals *)

(** [gaussian(x, beta) = exp(-0.5 * (x/beta)^2)] *)
Definition gaussian_spec (x beta : R) : R := exp (-0.5 * (x / beta) ^ 2).

(** [gaussian_derivative(x, beta) = -(x/beta^2) * gaussian(x, beta)] *)
Definition gaussian_derivative_spec (x beta : R) : R :=
  - (x / beta ^ 2) * gaussian_spec x beta.

(** [window(d, cutoff) = (1 - d/cutoff)^2] *)
Definition window_spec (d cutoff : R) : R := (1 - d / cutoff) ^ 2.

(** [window_derivative(d, cutoff) = -2/cutoff * (1 - d/cutoff)] *)
Definition window_derivative_spec (d cutoff : R) : R :=
  -2 / cutoff * (1 - d / cutoff).

(** Raw feature at the grid point [xk]:
    [sum_j gaussian(xk - d_j, beta) * window(d_j, cutoff)]. *)
Definition raw_p (r : list (vec3 R)) (cutoff beta xk : R) : R :=
  Rsum (map (fun rj => gaussian_spec (xk - norm3 rj) beta
                       * window_spec (norm3 rj) cutoff) r).

(** Raw Jacobian row of neighbour [rj] at the grid point [xk]:
    [-dg_dx * c_j * unit_j + gaussian * D_c_j * unit_j]. *)
Definition raw_q (cutoff beta xk : R) (rj : vec3 R) : vec3 R :=
  let dj := norm3 rj in
  vmap (fun e =>
          - gaussian_derivative_spec (xk - dj) beta * window_spec dj cutoff
            * (e / dj)
          + gaussian_spec (xk - dj) beta * window_derivative_spec dj cutoff
            * (e / dj)) rj.

(** ** Closed forms and auxiliary notions used in the statements *)

(** The sum over the grid axis, per coordinate. *)
Definition col_sum (xs : list R) (F : R -> vec3 R) : vec3 R :=
  mk3 (Rsum (map (fun xk => vx (F xk)) xs))
      (Rsum (map (fun xk => vy (F xk)) xs))
      (Rsum (map (fun xk => vz (F xk)) xs)).

(** Normalised Jacobian row, from the raw entries [P] and [Q] and the norm. *)
Definition unit_q (xs : list R) (P : R -> R) (Q : R -> vec3 R -> vec3 R)
  (nrm xk : R) (rj : vec3 R) : vec3 R :=
  vmap2 Rminus
    (vmap (fun e => e / nrm) (Q xk rj))
    (vmap (Rmult (P xk / nrm))
       (col_sum xs (fun xi => vmap (Rmult (P xi / nrm))
                                (vmap (fun e => e / nrm) (Q xi rj))))).

(** One neighbour's contribution to the raw feature at [xk], as a function
    of its distance. *)
Definition pair_term (cutoff beta xk d : R) : R :=
  gaussian_spec (xk - d) beta * window_spec d cutoff.

Definition dot3 (u v : vec3 R) : R := vx u * vx v + vy u * vy v + vz u * vz v.

(** The matrix with rows [vx M], [vy M], [vz M] applied to [v]. *)
Definition mat_vec (M : vec3 (vec3 R)) (v : vec3 R) : vec3 R :=
  mk3 (dot3 (vx M) v) (dot3 (vy M) v) (dot3 (vz M) v).

(** The columns of [M] are orthonormal (transpose(M) * M is the identity). *)
Definition orthogonal (M : vec3 (vec3 R)) : Prop :=
  let col (f : vec3 R -> R) := mk3 (f (vx M)) (f (vy M)) (f (vz M)) in
  dot3 (col vx) (col vx) = 1 /\ dot3 (col vy) (col vy) = 1 /\
  dot3 (col vz) (col vz) = 1 /\ dot3 (col vx) (col vy) = 0 /\
  dot3 (col vx) (col vz) = 0 /\ dot3 (col vy) (col vz) = 0.

(** The descriptor part of a result. *)
Definition descriptor_of {A B : Type} (res : result (A * B)) : result A :=
  pq <- res ;; Ok (fst pq).

(** The raw feature [p_k] as a function of the neighbour configuration. *)
Definition raw_feature (k : nat) (cutoff alpha beta : R) (r : list (vec3 R))
  : R :=
  match rbf_descriptor r cutoff alpha beta false with
  | Ok (p, _) => to_R (nth k p NaN)
  | Raise _ => 0
  end.

(** The neighbour set of the specification's scenario: one neighbour at
    [(1, 0, 0)]. *)
Definition sample_r : list (vec3 R) := [mk3 1 0 0].

(** The quarter turn about the z axis. *)
Definition quarter_turn : vec3 (vec3 R) :=
  mk3 (mk3 0 (-1) 0) (mk3 1 0 0) (mk3 0 0 1).

(** ** One neighbour's entries as the code computes them

    The arrays of [rbf_descriptor] hold, for the grid point [xk] and the
    neighbour [rj], the following extended reals, whatever the distances. *)

(** Entry [c[j]] of [smooth_cutoff(d, cutoff)]. *)
Definition window1 (dj cutoff : R) : xreal :=
  xsqr (xsub (Fin 1) (xdiv (Fin dj) (Fin cutoff))).

(** Entry [D_c_d[j]] of [smooth_cutoff_derivative(d, cutoff)]. *)
Definition window_derivative1 (dj cutoff : R) : xreal :=
  xmul (Fin (2 * (-1 / cutoff))) (xsub (Fin 1) (xdiv (Fin dj) (Fin cutoff))).

(** Entry [D_g_x[k, j]] of [gaussian_derivative(x, beta)]. *)
Definition gaussian_derivative1 (x beta : R) : xreal :=
  xmul (xopp (xdiv (Fin x) (Fin (beta ^ 2)))) (gaussian1 x beta).

(** Entry [p[k]] before normalisation. *)
Definition raw_p_x (r : list (vec3 R)) (cutoff beta xk : R) : xreal :=
  xsum (map (fun rj => xmul (gaussian1 (xk - norm3 rj) beta)
                            (window1 (norm3 rj) cutoff)) r).

(** Row [q[k, j, :]] before normalisation. *)
Definition raw_q_x (cutoff beta xk : R) (rj : vec3 R) : vec3 xreal :=
  let dj := norm3 rj in
  let D_d_r := vmap (fun e => xdiv (Fin e) (Fin dj)) rj in
  vmap2 xadd
    (vmap (fun e => xmul e (window1 dj cutoff))
       (vmap (xmul (xopp (gaussian_derivative1 (xk - dj) beta))) D_d_r))
    (vmap (xmul (gaussian1 (xk - dj) beta))
       (vmap (xmul (window_derivative1 dj cutoff)) D_d_r)).

(** [l[sigma]]: the rows of [l] taken in the order of the index array
    [sigma]. *)
Definition reindex {A : Type} (dflt : A) (sigma : list nat) (l : list A)
  : list A :=
  map (fun i => nth i l dflt) sigma.

(** The normalised feature [p_k] as a function of the neighbour
    configuration. *)
Definition normalized_feature (k : nat) (cutoff alpha beta : R)
  (r : list (vec3 R)) : R :=
  match rbf_descriptor r cutoff alpha beta true with
  | Ok (p, _) => to_R (nth k p NaN)
  | Raise _ => 0
  end.

(** ** The test-input generator *)

(** [r[m]] for a boolean mask [m]. *)
Definition mask_select {A : Type} (r : list A) (m : list bool) : list A :=
  map fst (filter snd (combine r m)).

(** [_generate_test_r(n, cutoff)], as a function of the array [rand] that
    [np.random.uniform(size=(10 * n, 3))] draws. *)
Definition _generate_test_r (rand : list (vec3 R)) (n : nat) (cutoff : R)
  : list (vec3 R) :=
  let r := map (vmap (fun e => 2 * (e - 0.5) * cutoff)) rand in
  let d := map norm3 r in
  let m := map (fun dj => Rltb (0.1 * cutoff) dj && Rltb dj cutoff) d in
  firstn n (mask_select r m).

(** ** The dataset driver *)

(** What [get_descriptor_data] reads of an [ase.Atoms] object. *)
Record Atoms : Type := mkAtoms {
  positions : list (vec3 R);
  cell : vec3 (vec3 R)
}.

(** Errors of the driver: an index array out of bounds, or an error of
    [rbf_descriptor]. *)
Inductive driver_exn : Type :=
| IndexError
| DescriptorError (e : exn).

Inductive driver_result (A : Type) : Type :=
| Done (a : A)
| Failed (e : driver_exn).
Arguments Done {A} a.
Arguments Failed {A} e.

(** One row of [(offsets[..., None] * atoms.cell).sum(axis=1)]: the
    combination of the cell's rows with the integer offsets. *)
Definition shift (o : vec3 BinNums.Z) (cl : vec3 (vec3 R)) : vec3 R :=
  vmap2 Rplus
    (vmap2 Rplus (vmap (Rmult (IZR (vx o))) (vx cl))
                 (vmap (Rmult (IZR (vy o))) (vy cl)))
    (vmap (Rmult (IZR (vz o))) (vz cl)).

(** [atoms.positions[j] - atoms.positions[i] + shifts]; indexing with an
    index of [j] beyond the array raises. *)
Fixpoint relative_vectors (pos : list (vec3 R)) (cl : vec3 (vec3 R))
  (pi : vec3 R) (nbrs : list (nat * vec3 BinNums.Z)) : driver_result (list (vec3 R)) :=
  match nbrs with
  | [] => Done []
  | (j, o) :: rest =>
      match nth_error pos j with
      | None => Failed IndexError
      | Some pj =>
          match relative_vectors pos cl pi rest with
          | Failed e => Failed e
          | Done rs => Done (vmap2 Rplus (vmap2 Rminus pj pi) (shift o cl) :: rs)
          end
      end
  end.

(** The body of the loop of [get_descriptor_data] for the atom [i], whose
    neighbour rows [(j, offset)] are [nbrs]. *)
Definition descriptor_entry (atoms : Atoms) (cutoff alpha beta : R) (i : nat)
  (nbrs : list (nat * vec3 BinNums.Z))
  : driver_result (list nat * list xreal * list (list (vec3 xreal))) :=
  match relative_vectors (positions atoms) (cell atoms)
          (nth i (positions atoms) (mk3 0 0 0)) nbrs with
  | Failed e => Failed e
  | Done rij =>
      match rbf_descriptor rij cutoff alpha beta true with
      | Raise e => Failed (DescriptorError e)
      | Ok (d, jac) => Done (map fst nbrs, d, jac)
      end
  end.

(** The loop of [get_descriptor_data] over the atoms [ids]; [nl i] is
    [nl.get_neighbors(i)]. *)
Fixpoint descriptor_loop (atoms : Atoms) (nl : nat -> list (nat * vec3 BinNums.Z))
  (cutoff alpha beta : R) (ids : list nat)
  : driver_result (list (list nat * list xreal * list (list (vec3 xreal)))) :=
  match ids with
  | [] => Done []
  | i :: rest =>
      match descriptor_entry atoms cutoff alpha beta i (nl i) with
      | Failed e => Failed e
      | Done x =>
          match descriptor_loop atoms nl cutoff alpha beta rest with
          | Failed e => Failed e
          | Done xs => Done (x :: xs)
          end
      end
  end.

(** [get_descriptor_data(atoms, cutoff, alpha, beta)]; the neighbour list
    builder of the [neighborlist] module is the parameter
    [get_neighbor_list]. *)
Definition get_descriptor_data
  (get_neighbor_list : Atoms -> R -> nat -> list (nat * vec3 BinNums.Z))
  (atoms : Atoms) (cutoff alpha beta : R)
  : driver_result (list (list nat * list xreal * list (list (vec3 xreal)))) :=
  let nl := get_neighbor_list atoms cutoff in
  descriptor_loop atoms nl cutoff alpha beta
    (seq 0 (length (positions atoms))).

(** Two atoms one unit apart in a cubic cell of side 5, and the neighbour
    list in which each is the other's neighbour at offset zero. *)
Definition sample_atoms : Atoms :=
  mkAtoms [mk3 0 0 0; mk3 1 0 0]
          (mk3 (mk3 5 0 0) (mk3 0 5 0) (mk3 0 0 5)).

Definition sample_neighbor_list (_ : Atoms) (_ : R) (i : nat)
  : list (nat * vec3 BinNums.Z) :=
  match i with
  | O => [(1%nat, mk3 0%Z 0%Z 0%Z)]
  | S O => [(0%nat, mk3 0%Z 0%Z 0%Z)]
  | _ => []
  end.

(** ** The raw descriptor with the underflow of float64

    In float64 [np.exp] returns exactly [0.0] once its argument is below
    about [-745.14], where the exponential is less than half the smallest
    positive float64.  [exp_f64] is [np.exp] with that underflow, taken
    below [-746], and no other rounding; [raw_descriptor_f64] is the
    descriptor part of [rbf_descriptor] (the lines before the Jacobian)
    computed with it. *)




(** * Auxiliary facts *)

(** ** Arithmetic of finite values *)

Lemma xdiv_Fin (x y : R) : y <> 0 -> xdiv (Fin x) (Fin y) = Fin (x / y).
Proof.
  intros Hy. unfold xdiv. destruct (Req_dec_T y 0) as [E|_]; [contradiction|reflexivity].
Qed.

Lemma xdiv_zero_zero : xdiv (Fin 0) (Fin 0) = NaN.
Proof.
  unfold xdiv. destruct (Req_dec_T 0 0) as [_|N]; [reflexivity|exfalso; apply N; reflexivity].
Qed.

Lemma xsqrt_Fin (x : R) : 0 <= x -> xsqrt (Fin x) = Fin (sqrt x).
Proof.
  intros Hx. unfold xsqrt. destruct (Rlt_dec x 0) as [L|_]; [lra|reflexivity].
Qed.

Lemma xsum_Fin (l : list R) : xsum (map Fin l) = Fin (Rsum l).
Proof.
  unfold xsum, Rsum. induction l as [|a l IH]; simpl; [reflexivity|].
  rewrite IH. reflexivity.
Qed.

Lemma xsum_map_Fin {A : Type} (f : A -> R) (l : list A) :
  xsum (map (fun a => Fin (f a)) l) = Fin (Rsum (map f l)).
Proof. rewrite <- xsum_Fin, map_map. reflexivity. Qed.

Lemma Rltb_true (a b : R) : a < b -> Rltb a b = true.
Proof. intros H. unfold Rltb. destruct (Rlt_dec a b); [reflexivity|contradiction]. Qed.

Lemma Rltb_false (a b : R) : b <= a -> Rltb a b = false.
Proof. intros H. unfold Rltb. destruct (Rlt_dec a b); [lra|reflexivity]. Qed.

Lemma gaussian1_Fin (x beta : R) :
  beta <> 0 -> gaussian1 x beta = Fin (gaussian_spec x beta).
Proof.
  intros Hb. unfold gaussian1, gaussian_spec, xsqr.
  rewrite xdiv_Fin by assumption. simpl. do 2 f_equal. ring.
Qed.

Lemma window_Fin (d cutoff : R) :
  cutoff <> 0 ->
  xsqr (xsub (Fin 1) (xdiv (Fin d) (Fin cutoff))) = Fin (window_spec d cutoff).
Proof.
  intros Hc. unfold xsqr, window_spec. rewrite xdiv_Fin by assumption.
  simpl. f_equal. ring.
Qed.

Lemma window_derivative_Fin (d cutoff : R) :
  cutoff <> 0 ->
  xmul (Fin (2 * (-1 / cutoff))) (xsub (Fin 1) (xdiv (Fin d) (Fin cutoff)))
  = Fin (window_derivative_spec d cutoff).
Proof.
  intros Hc. unfold window_derivative_spec. rewrite xdiv_Fin by assumption.
  simpl. f_equal. field. assumption.
Qed.

Lemma gaussian_spec_pos (x beta : R) : 0 < gaussian_spec x beta.
Proof. apply exp_pos. Qed.

Lemma window_spec_pos (d cutoff : R) :
  0 < d < cutoff -> 0 < window_spec d cutoff.
Proof.
  intros [Hd Hc]. unfold window_spec.
  assert (H : 0 < 1 - d / cutoff).
  { apply Rlt_0_minus. apply Rmult_lt_reg_r with cutoff; [lra|].
    unfold Rdiv. rewrite Rmult_assoc, Rinv_l by lra. lra. }
  apply pow_lt. exact H.
Qed.

(** ** Arrays built from the same index list *)

Lemma map2_map_map {A B C D : Type} (f : B -> C -> D) (g : A -> B) (h : A -> C)
  (l : list A) :
  map2 f (map g l) (map h l) = map (fun a => f (g a) (h a)) l.
Proof. induction l as [|a l IH]; simpl; [reflexivity|now rewrite IH]. Qed.

Lemma map2_id_map {A C D : Type} (f : A -> C -> D) (h : A -> C) (l : list A) :
  map2 f l (map h l) = map (fun a => f a (h a)) l.
Proof. induction l as [|a l IH]; simpl; [reflexivity|now rewrite IH]. Qed.

Lemma nth_map_lt {A B : Type} (f : A -> B) (l : list A) (k : nat) (d : B)
  (d' : A) :
  (k < length l)%nat -> nth k (map f l) d = f (nth k l d').
Proof.
  revert k. induction l as [|a l IH]; intros [|k] Hk; simpl in *; try lia.
  - reflexivity.
  - apply IH. lia.
Qed.

Lemma forallb_Rltb (d : list R) (cutoff : R) :
  Forall (fun dj => dj < cutoff) d ->
  forallb (fun dj => Rltb dj cutoff) d = true.
Proof.
  induction 1 as [|a l Ha _ IH]; simpl; [reflexivity|].
  now rewrite Rltb_true, IH.
Qed.

Lemma forallb_Rltb_false (d : list R) (cutoff : R) :
  Exists (fun dj => cutoff <= dj) d ->
  forallb (fun dj => Rltb dj cutoff) d = false.
Proof.
  induction 1 as [a l Ha|a l _ IH]; simpl.
  - now rewrite Rltb_false.
  - rewrite IH. apply andb_false_r.
Qed.

Lemma radial_grid_Ok (cutoff alpha : R) :
  alpha <> 0 -> radial_grid cutoff alpha = Ok (grid_points cutoff alpha).
Proof.
  intros Ha. unfold radial_grid.
  destruct (Req_dec_T alpha 0); [contradiction|reflexivity].
Qed.


Lemma grid_points_length (cutoff alpha : R) :
  length (grid_points cutoff alpha) = Z.to_nat (Zceil (cutoff / alpha)).
Proof.
  unfold grid_points. rewrite length_map, length_seq.
  now replace (cutoff - 0) with cutoff by ring.
Qed.

Lemma grid_points_nth (cutoff alpha : R) (k : nat) :
  (k < length (grid_points cutoff alpha))%nat ->
  nth k (grid_points cutoff alpha) 0 = INR k * alpha.
Proof.
  intros Hk. unfold grid_points in *. rewrite length_map, length_seq in Hk.
  rewrite nth_map_lt with (d' := O) by now rewrite length_seq.
  rewrite seq_nth by assumption. simpl. ring.
Qed.

Lemma Zceil_pos (x : R) : 0 < x -> (0 < Zceil x)%Z.
Proof.
  intros Hx. destruct (Zceil_bound x) as [_ H].
  apply lt_IZR. lra.
Qed.

Lemma grid_points_nonempty (cutoff alpha : R) :
  0 < cutoff -> 0 < alpha -> grid_points cutoff alpha <> [].
Proof.
  intros Hc Ha E. apply (f_equal (@length R)) in E.
  rewrite grid_points_length in E. simpl in E.
  assert (H : (0 < Zceil (cutoff / alpha))%Z).
  { apply Zceil_pos. apply Rdiv_lt_0_compat; assumption. }
  lia.
Qed.

(** ** The raw descriptor and Jacobian in closed form *)

Lemma smooth_cutoff_derivative_Ok (d : list R) (cutoff : R) :
  cutoff <> 0 ->
  smooth_cutoff_derivative d cutoff
  = Ok (map (fun dj => Fin (window_derivative_spec dj cutoff)) d).
Proof.
  intros Hc. unfold smooth_cutoff_derivative.
  destruct (Req_dec_T cutoff 0); [contradiction|].
  f_equal. apply map_ext. intros dj. now apply window_derivative_Fin.
Qed.

Lemma raw_p_Fin (r : list (vec3 R)) (cutoff beta xk : R) :
  cutoff <> 0 -> beta <> 0 ->
  xsum (map2 xmul (map (fun xkj => gaussian1 xkj beta)
                       (map (fun dj => xk - dj) (map norm3 r)))
                  (smooth_cutoff (map norm3 r) cutoff))
  = Fin (raw_p r cutoff beta xk).
Proof.
  intros Hc Hb. unfold smooth_cutoff, raw_p.
  rewrite !map_map, map2_map_map, <- xsum_map_Fin.
  f_equal. apply map_ext. intros rj.
  rewrite gaussian1_Fin, window_Fin by assumption. reflexivity.
Qed.

Lemma raw_q_Fin (cutoff beta xk : R) (rj : vec3 R) :
  cutoff <> 0 -> beta <> 0 -> norm3 rj <> 0 ->
  vmap2 xadd
    (vmap (fun e => xmul e (xsqr (xsub (Fin 1) (xdiv (Fin (norm3 rj)) (Fin cutoff)))))
       (vmap (xmul (xopp (xmul (xopp (xdiv (Fin (xk - norm3 rj)) (Fin (beta ^ 2))))
                                (gaussian1 (xk - norm3 rj) beta))))
          (vmap (fun e => xdiv (Fin e) (Fin (norm3 rj))) rj)))
    (vmap (xmul (gaussian1 (xk - norm3 rj) beta))
       (vmap (xmul (Fin (window_derivative_spec (norm3 rj) cutoff)))
          (vmap (fun e => xdiv (Fin e) (Fin (norm3 rj))) rj)))
  = vmap Fin (raw_q cutoff beta xk rj).
Proof.
  intros Hc Hb Hd.
  assert (Hb2 : beta ^ 2 <> 0) by (apply pow_nonzero; assumption).
  rewrite gaussian1_Fin, window_Fin by assumption.
  unfold raw_q, gaussian_derivative_spec. cbv zeta.
  unfold vmap, vmap2; cbn [vx vy vz].
  rewrite !xdiv_Fin by assumption. cbn [xmul xadd xopp].
  f_equal; f_equal; ring.
Qed.

Lemma rbf_descriptor_raw (r : list (vec3 R)) (cutoff alpha beta : R) :
  cutoff <> 0 -> alpha <> 0 -> beta <> 0 ->
  Forall (fun rj => 0 < norm3 rj < cutoff) r ->
  rbf_descriptor r cutoff alpha beta false
  = Ok (map (fun xk => Fin (raw_p r cutoff beta xk)) (grid_points cutoff alpha),
        map (fun xk => map (fun rj => vmap Fin (raw_q cutoff beta xk rj)) r)
            (grid_points cutoff alpha)).
Proof.
  intros Hc Ha Hb Hr. unfold rbf_descriptor.
  rewrite forallb_Rltb
    by (rewrite Forall_map; revert Hr; apply Forall_impl; intros; lra).
  rewrite radial_grid_Ok by assumption. cbn [bind].
  rewrite smooth_cutoff_derivative_Ok by assumption. cbn [bind].
  unfold gaussian, gaussian_derivative.
  rewrite !map_map. f_equal. f_equal.
  - apply map_ext. intros xk. now apply raw_p_Fin.
  - rewrite map2_map_map. apply map_ext. intros xk.
    unfold smooth_cutoff. rewrite !map_map.
    rewrite (map2_id_map (fun rj dj => vmap (fun e => xdiv (Fin e) (Fin dj)) rj)
               norm3 r).
    rewrite !map2_map_map.
    apply map_ext_in. intros rj Hin.
    rewrite Forall_forall in Hr. specialize (Hr rj Hin).
    apply raw_q_Fin; try assumption. lra.
Qed.

(** ** The radial grid *)



Lemma Zceil_floor_cases (x : R) :
  (IZR (Zfloor x) = x -> Zceil x = Zfloor x) /\
  (IZR (Zfloor x) <> x -> Zceil x = (Zfloor x + 1)%Z).
Proof.
  destruct (Zfloor_bound x) as [Hlo Hhi]. split; intros H.
  - apply Zceil_eq. lra.
  - apply Zceil_eq. rewrite plus_IZR. lra.
Qed.

Lemma Zfloor_nonneg (x : R) : 0 <= x -> (0 <= Zfloor x)%Z.
Proof.
  intros Hx. destruct (Zfloor_bound x) as [_ Hhi].
  assert (H : (-1 < Zfloor x)%Z) by (apply lt_IZR; lra).
  lia.
Qed.

(** ** The normalisation step in closed form *)

Lemma Rsum_sq_nonneg {A : Type} (f : A -> R) (l : list A) :
  0 <= Rsum (map (fun a => f a * f a) l).
Proof.
  unfold Rsum. induction l as [|a l IH]; simpl; [lra|].
  pose proof (Rle_0_sqr (f a)) as H. unfold Rsqr in H. lra.
Qed.

Lemma Rsum_pos {A : Type} (f : A -> R) (l : list A) :
  l <> [] -> (forall a, In a l -> 0 < f a) -> 0 < Rsum (map f l).
Proof.
  unfold Rsum. induction l as [|a l IH]; intros Hne Hpos; [contradiction|].
  simpl. assert (Ha : 0 < f a) by (apply Hpos; now left).
  destruct l as [|b l]; [simpl; lra|].
  assert (0 < fold_right Rplus 0 (map f (b :: l))).
  { apply IH; [discriminate|]. intros x Hx. apply Hpos. now right. }
  lra.
Qed.

Lemma xnorm_Fin {A : Type} (f : A -> R) (l : list A) :
  xnorm (map (fun a => Fin (f a)) l)
  = Fin (sqrt (Rsum (map (fun a => f a * f a) l))).
Proof.
  unfold xnorm. rewrite map_map. unfold xsqr. cbn [xmul].
  rewrite xsum_map_Fin. apply xsqrt_Fin. apply Rsum_sq_nonneg.
Qed.

Lemma sum_axis0_Fin (xs : list R) (r : list (vec3 R))
  (F : R -> vec3 R -> vec3 R) :
  sum_axis0 (length r) (map (fun xk => map (fun rj => vmap Fin (F xk rj)) r) xs)
  = map (fun rj => vmap Fin (col_sum xs (fun xk => F xk rj))) r.
Proof.
  unfold sum_axis0. induction xs as [|xk xs IH]; simpl.
  - induction r as [|rj r IHr]; simpl; [reflexivity|]. now rewrite IHr.
  - rewrite IH, map2_map_map. apply map_ext. intros rj. reflexivity.
Qed.

Lemma normalize_Fin (xs : list R) (r : list (vec3 R)) (P : R -> R)
  (Q : R -> vec3 R -> vec3 R) (nrm : R) :
  nrm = sqrt (Rsum (map (fun xk => P xk * P xk) xs)) ->
  nrm <> 0 ->
  normalize (length r)
    (map (fun xk => Fin (P xk)) xs)
    (map (fun xk => map (fun rj => vmap Fin (Q xk rj)) r) xs)
  = (map (fun xk => Fin (P xk / nrm)) xs,
     map (fun xk => map (fun rj => vmap Fin (unit_q xs P Q nrm xk rj)) r) xs).
Proof.
  intros Hn Hnz. unfold normalize. rewrite xnorm_Fin, <- Hn.
  rewrite !map_map.
  rewrite (map_ext (fun xk => xdiv (Fin (P xk)) (Fin nrm))
                   (fun xk => Fin (P xk / nrm)))
    by (intros; now apply xdiv_Fin).
  rewrite (map_ext
             (fun xk => map (vmap (fun e => xdiv e (Fin nrm)))
                          (map (fun rj => vmap Fin (Q xk rj)) r))
             (fun xk => map (fun rj => vmap Fin (vmap (fun e => e / nrm) (Q xk rj))) r)).
  2:{ intros xk. rewrite map_map. apply map_ext. intros rj.
      unfold vmap; cbn [vx vy vz]. now rewrite !xdiv_Fin. }
  rewrite !map2_map_map.
  rewrite (map_ext
             (fun xk => map (vmap (xmul (Fin (P xk / nrm))))
                          (map (fun rj => vmap Fin (vmap (fun e => e / nrm) (Q xk rj))) r))
             (fun xk => map (fun rj => vmap Fin
                                        (vmap (Rmult (P xk / nrm))
                                           (vmap (fun e => e / nrm) (Q xk rj)))) r))
    by (intros xk; rewrite map_map; reflexivity).
  rewrite sum_axis0_Fin.
  f_equal. apply map_ext. intros xk.
  rewrite map2_map_map. apply map_ext. intros rj. reflexivity.
Qed.

Lemma unit_norm_sum {A : Type} (f : A -> R) (l : list A) (nrm : R) :
  nrm = sqrt (Rsum (map (fun a => f a * f a) l)) ->
  nrm <> 0 ->
  Rsum (map (fun a => f a / nrm * (f a / nrm)) l) = 1.
Proof.
  intros Hn Hnz.
  assert (Hsq : nrm * nrm = Rsum (map (fun a => f a * f a) l)).
  { rewrite Hn. apply sqrt_sqrt. apply Rsum_sq_nonneg. }
  assert (Hscal : forall l', Rsum (map (fun a => f a / nrm * (f a / nrm)) l')
                             = Rsum (map (fun a => f a * f a) l') / (nrm * nrm)).
  { unfold Rsum. induction l' as [|a l' IH]; simpl.
    - unfold Rdiv. ring.
    - rewrite IH. field. assumption. }
  rewrite Hscal, <- Hsq. field. assumption.
Qed.

Lemma projected_sum {A : Type} (u a : A -> R) (s : R) (l : list A) :
  Rsum (map (fun x => u x * (a x - u x * s)) l)
  = Rsum (map (fun x => u x * a x) l) - s * Rsum (map (fun x => u x * u x) l).
Proof.
  unfold Rsum. induction l as [|x l IH]; simpl; [ring|]. rewrite IH. ring.
Qed.

Lemma coord_vmap {A B : Type} (f : A -> B) (c : axis) (v : vec3 A) :
  coord c (vmap f v) = f (coord c v).
Proof. destruct c; reflexivity. Qed.

Lemma coord_vmap2 {A B C : Type} (f : A -> B -> C) (c : axis) (u : vec3 A)
  (v : vec3 B) :
  coord c (vmap2 f u v) = f (coord c u) (coord c v).
Proof. destruct c; reflexivity. Qed.

Lemma coord_col_sum (xs : list R) (F : R -> vec3 R) (c : axis) :
  coord c (col_sum xs F) = Rsum (map (fun xk => coord c (F xk)) xs).
Proof. destruct c; reflexivity. Qed.

Lemma raw_p_pos (r : list (vec3 R)) (cutoff beta xk : R) :
  r <> [] -> Forall (fun rj => 0 < norm3 rj < cutoff) r ->
  0 < raw_p r cutoff beta xk.
Proof.
  intros Hne Hr. unfold raw_p. apply Rsum_pos; [assumption|].
  intros rj Hin. rewrite Forall_forall in Hr.
  apply Rmult_lt_0_compat; [apply gaussian_spec_pos|].
  apply window_spec_pos. now apply Hr.
Qed.

Lemma raw_norm_pos (r : list (vec3 R)) (cutoff alpha beta : R) :
  r <> [] -> Forall (fun rj => 0 < norm3 rj < cutoff) r -> 0 < alpha ->
  0 < sqrt (Rsum (map (fun xk => raw_p r cutoff beta xk * raw_p r cutoff beta xk)
                      (grid_points cutoff alpha))).
Proof.
  intros Hne Hr Ha. apply sqrt_lt_R0. apply Rsum_pos.
  - apply grid_points_nonempty; [|assumption].
    destruct r as [|rj r]; [contradiction|].
    inversion Hr; subst. lra.
  - intros xk _. pose proof (raw_p_pos r cutoff beta xk Hne Hr). nra.
Qed.

Lemma rbf_descriptor_normalize (r : list (vec3 R)) (cutoff alpha beta : R) :
  rbf_descriptor r cutoff alpha beta true
  = (pq <- rbf_descriptor r cutoff alpha beta false ;;
     Ok (normalize (length r) (fst pq) (snd pq))).
Proof.
  unfold rbf_descriptor, bind.
  destruct (forallb _ _); [|reflexivity].
  destruct (radial_grid cutoff alpha); [|reflexivity].
  destruct (smooth_cutoff_derivative _ cutoff); reflexivity.
Qed.

Lemma rbf_descriptor_normalized (r : list (vec3 R)) (cutoff alpha beta nrm : R) :
  r <> [] -> 0 < alpha -> beta <> 0 ->
  Forall (fun rj => 0 < norm3 rj < cutoff) r ->
  nrm = sqrt (Rsum (map (fun xk => raw_p r cutoff beta xk * raw_p r cutoff beta xk)
                        (grid_points cutoff alpha))) ->
  rbf_descriptor r cutoff alpha beta true
  = Ok (map (fun xk => Fin (raw_p r cutoff beta xk / nrm)) (grid_points cutoff alpha),
        map (fun xk =>
               map (fun rj => vmap Fin (unit_q (grid_points cutoff alpha)
                                          (raw_p r cutoff beta) (raw_q cutoff beta)
                                          nrm xk rj)) r)
            (grid_points cutoff alpha)).
Proof.
  intros Hne Ha Hb Hr Hn.
  assert (Hc : 0 < cutoff).
  { destruct r as [|rj r]; [contradiction|]. inversion Hr; subst. lra. }
  rewrite rbf_descriptor_normalize.
  rewrite rbf_descriptor_raw by (try assumption; lra).
  cbn [bind fst snd]. f_equal. apply normalize_Fin; [assumption|].
  pose proof (raw_norm_pos r cutoff alpha beta Hne Hr Ha). lra.
Qed.

Lemma coord_unit_q (xs : list R) (P : R -> R) (Q : R -> vec3 R -> vec3 R)
  (nrm xk : R) (rj : vec3 R) (c : axis) :
  coord c (unit_q xs P Q nrm xk rj)
  = coord c (Q xk rj) / nrm
    - P xk / nrm
      * Rsum (map (fun xi => P xi / nrm * (coord c (Q xi rj) / nrm)) xs).
Proof.
  unfold unit_q. rewrite coord_vmap2, !coord_vmap, coord_col_sum.
  do 3 f_equal. apply map_ext. intros xi. now rewrite !coord_vmap.
Qed.

(** ** Results and errors of the whole computation *)

Lemma rbf_descriptor_returns (r : list (vec3 R)) (cutoff alpha beta : R)
  (normalized : bool) :
  cutoff <> 0 -> alpha <> 0 ->
  Forall (fun rj => norm3 rj < cutoff) r ->
  exists pq, rbf_descriptor r cutoff alpha beta normalized = Ok pq.
Proof.
  intros Hc Ha Hr. unfold rbf_descriptor.
  rewrite forallb_Rltb by now rewrite Forall_map.
  rewrite radial_grid_Ok by assumption. cbn [bind].
  rewrite smooth_cutoff_derivative_Ok by assumption. cbn [bind].
  destruct normalized; eexists; reflexivity.
Qed.

Lemma Rsum_zero {A : Type} (f : A -> R) (l : list A) :
  (forall a, f a = 0) -> Rsum (map f l) = 0.
Proof.
  intros Hf. unfold Rsum. induction l as [|a l IH]; simpl; [reflexivity|].
  rewrite IH, Hf. ring.
Qed.

Lemma rbf_descriptor_no_neighbors (cutoff alpha beta : R) :
  cutoff <> 0 -> alpha <> 0 -> beta <> 0 ->
  rbf_descriptor [] cutoff alpha beta true
  = Ok (map (fun _ => NaN) (grid_points cutoff alpha),
        map (fun _ => []) (grid_points cutoff alpha)).
Proof.
  intros Hc Ha Hb. rewrite rbf_descriptor_normalize.
  rewrite rbf_descriptor_raw by (try assumption; constructor).
  cbn [bind fst snd map length]. unfold normalize.
  rewrite xnorm_Fin.
  rewrite Rsum_zero by (intros; unfold raw_p; simpl; ring).
  rewrite sqrt_0, !map_map, !map2_map_map.
  f_equal. f_equal.
  apply map_ext. intros xk. unfold raw_p. cbn [map Rsum fold_right].
  apply xdiv_zero_zero.
Qed.

Lemma norm3_zero : norm3 (mk3 0 0 0) = 0.
Proof.
  unfold norm3; cbn [vx vy vz].
  replace (0 ^ 2 + 0 ^ 2 + 0 ^ 2) with 0 by ring. apply sqrt_0.
Qed.

(** ** Rotations *)

Lemma norm3_mat_vec (M : vec3 (vec3 R)) (v : vec3 R) :
  orthogonal M -> norm3 (mat_vec M v) = norm3 v.
Proof.
  intros (Hxx & Hyy & Hzz & Hxy & Hxz & Hyz).
  destruct M as [[a1 b1 c1] [a2 b2 c2] [a3 b3 c3]], v as [x y z].
  unfold norm3, mat_vec, dot3 in *; cbn [vx vy vz] in *. f_equal.
  transitivity ((a1 * a1 + a2 * a2 + a3 * a3) * x ^ 2
                + (b1 * b1 + b2 * b2 + b3 * b3) * y ^ 2
                + (c1 * c1 + c2 * c2 + c3 * c3) * z ^ 2
                + 2 * (a1 * b1 + a2 * b2 + a3 * b3) * (x * y)
                + 2 * (a1 * c1 + a2 * c2 + a3 * c3) * (x * z)
                + 2 * (b1 * c1 + b2 * c2 + b3 * c3) * (y * z)); [ring|].
  rewrite Hxx, Hyy, Hzz, Hxy, Hxz, Hyz. ring.
Qed.

Lemma descriptor_depends_on_distances (r r' : list (vec3 R))
  (cutoff alpha beta : R) (normalized : bool) :
  map norm3 r = map norm3 r' ->
  descriptor_of (rbf_descriptor r cutoff alpha beta normalized)
  = descriptor_of (rbf_descriptor r' cutoff alpha beta normalized).
Proof.
  intros Hd. unfold rbf_descriptor, descriptor_of. rewrite <- Hd.
  destruct (forallb _ _); [|reflexivity].
  destruct (radial_grid cutoff alpha) as [grid|e]; [|reflexivity].
  cbn [bind].
  destruct (smooth_cutoff_derivative _ cutoff) as [Dcd|e]; [|reflexivity].
  cbn [bind]. destruct normalized; reflexivity.
Qed.

(** ** Derivatives of the kernel functions *)

Lemma minus_half : -0.5 = - (1 / 2).
Proof. lra. Qed.

Lemma sqrt_pos_arg (x : R) : 0 < sqrt x -> 0 < x.
Proof.
  intros H. destruct (Rlt_dec 0 x) as [L|N]; [exact L|].
  rewrite sqrt_neg_0 in H by lra. lra.
Qed.

Lemma set_coord_same {A : Type} (c : axis) (v : vec3 A) :
  set_coord c (coord c v) v = v.
Proof. destruct c, v; reflexivity. Qed.

(** The distance of a neighbour as a function of one of its coordinates. *)
Lemma norm3_derivable (c : axis) (v : vec3 R) :
  0 < norm3 v ->
  derivable_pt_lim (fun t => norm3 (set_coord c t v)) (coord c v)
    (coord c v / norm3 v).
Proof.
  intros Hd.
  assert (Harg : 0 < vx v ^ 2 + vy v ^ 2 + vz v ^ 2) by now apply sqrt_pos_arg.
  assert (Hsq : derivable_pt_lim sqrt (vx v ^ 2 + vy v ^ 2 + vz v ^ 2)
                  (/ (2 * norm3 v)))
    by now apply derivable_pt_lim_sqrt.
  assert (Hpow : forall t, derivable_pt_lim (fun y => y ^ 2) t (2 * t)).
  { intros t. replace (2 * t) with (INR 2 * t ^ 1) by (simpl; ring).
    apply (derivable_pt_lim_pow t 2). }
  replace (coord c v / norm3 v) with (/ (2 * norm3 v) * (2 * coord c v))
    by (field; lra).
  destruct c, v as [x y z]; unfold norm3 in *; cbn [coord set_coord vx vy vz] in *.
  - apply (derivable_pt_lim_comp (fun t => t ^ 2 + y ^ 2 + z ^ 2) sqrt);
      [|exact Hsq].
    replace (2 * x) with (2 * x + 0 + 0) by ring.
    apply (derivable_pt_lim_plus (fun t => t ^ 2 + y ^ 2) (fun _ => z ^ 2));
      [|apply (derivable_pt_lim_const (z ^ 2))].
    apply (derivable_pt_lim_plus (fun t => t ^ 2) (fun _ => y ^ 2));
      [apply Hpow|apply (derivable_pt_lim_const (y ^ 2))].
  - apply (derivable_pt_lim_comp (fun t => x ^ 2 + t ^ 2 + z ^ 2) sqrt);
      [|exact Hsq].
    replace (2 * y) with (0 + 2 * y + 0) by ring.
    apply (derivable_pt_lim_plus (fun t => x ^ 2 + t ^ 2) (fun _ => z ^ 2));
      [|apply (derivable_pt_lim_const (z ^ 2))].
    apply (derivable_pt_lim_plus (fun _ => x ^ 2) (fun t => t ^ 2));
      [apply (derivable_pt_lim_const (x ^ 2))|apply Hpow].
  - apply (derivable_pt_lim_comp (fun t => x ^ 2 + y ^ 2 + t ^ 2) sqrt);
      [|exact Hsq].
    replace (2 * z) with (0 + 0 + 2 * z) by ring.
    apply (derivable_pt_lim_plus (fun t => x ^ 2 + y ^ 2) (fun t => t ^ 2));
      [|apply Hpow].
    apply (derivable_pt_lim_plus (fun _ => x ^ 2) (fun _ => y ^ 2));
      [apply (derivable_pt_lim_const (x ^ 2))|apply (derivable_pt_lim_const (y ^ 2))].
Qed.

Lemma raw_p_cons (v : vec3 R) (r : list (vec3 R)) (cutoff beta xk : R) :
  raw_p (v :: r) cutoff beta xk
  = pair_term cutoff beta xk (norm3 v) + raw_p r cutoff beta xk.
Proof. reflexivity. Qed.

Section Derivatives.

Variables cutoff beta : R.
Hypothesis Hcutoff : cutoff <> 0.
Hypothesis Hbeta : beta <> 0.

Lemma gaussian_spec_derivable (u : R) :
  derivable_pt_lim (fun x => gaussian_spec x beta) u
    (gaussian_derivative_spec u beta).
Proof.
  unfold gaussian_derivative_spec, gaussian_spec.
  replace (- (u / beta ^ 2) * exp (-0.5 * (u / beta) ^ 2))
    with (exp (-0.5 * (u / beta) ^ 2) * (-0.5 * (2 * (u / beta) ^ 1 * (1 / beta))))
    by (rewrite minus_half; field; exact Hbeta).
  apply (derivable_pt_lim_comp (fun x => -0.5 * (x / beta) ^ 2) exp).
  - apply (derivable_pt_lim_scal (fun x => (x / beta) ^ 2) (-0.5)).
    apply (derivable_pt_lim_comp (fun x => x / beta) (fun y => y ^ 2)).
    + apply (derivable_pt_lim_div_scal id). apply derivable_pt_lim_id.
    + apply (derivable_pt_lim_pow (u / beta) 2).
  - apply derivable_pt_lim_exp.
Qed.

Lemma window_spec_derivable (d : R) :
  derivable_pt_lim (fun x => window_spec x cutoff) d
    (window_derivative_spec d cutoff).
Proof.
  unfold window_spec, window_derivative_spec.
  replace (-2 / cutoff * (1 - d / cutoff))
    with (2 * (1 - d / cutoff) ^ 1 * (0 - 1 / cutoff)) by (field; exact Hcutoff).
  apply (derivable_pt_lim_comp (fun x => 1 - x / cutoff) (fun y => y ^ 2)).
  - apply (derivable_pt_lim_minus (fun _ => 1) (fun x => x / cutoff)).
    + apply (derivable_pt_lim_const 1).
    + apply (derivable_pt_lim_div_scal id). apply derivable_pt_lim_id.
  - apply (derivable_pt_lim_pow (1 - d / cutoff) 2).
Qed.

Lemma pair_term_derivable (xk d : R) :
  derivable_pt_lim (pair_term cutoff beta xk) d
    (- gaussian_derivative_spec (xk - d) beta * window_spec d cutoff
     + gaussian_spec (xk - d) beta * window_derivative_spec d cutoff).
Proof.
  unfold pair_term.
  apply (derivable_pt_lim_mult (fun x => gaussian_spec (xk - x) beta)
                               (fun x => window_spec x cutoff)).
  - replace (- gaussian_derivative_spec (xk - d) beta)
      with (gaussian_derivative_spec (xk - d) beta * (0 - 1)) by ring.
    apply (derivable_pt_lim_comp (fun x => xk - x)
                                 (fun y => gaussian_spec y beta)).
    + apply (derivable_pt_lim_minus (fun _ => xk) id).
      * apply (derivable_pt_lim_const xk).
      * apply derivable_pt_lim_id.
    + apply gaussian_spec_derivable.
  - apply window_spec_derivable.
Qed.

Lemma neighbor_term_derivable (xk : R) (c : axis) (v : vec3 R) :
  0 < norm3 v ->
  derivable_pt_lim (fun t => pair_term cutoff beta xk (norm3 (set_coord c t v)))
    (coord c v) (coord c (raw_q cutoff beta xk v)).
Proof.
  intros Hd. unfold raw_q. cbv zeta. rewrite coord_vmap.
  replace (- gaussian_derivative_spec (xk - norm3 v) beta * window_spec (norm3 v) cutoff
           * (coord c v / norm3 v)
           + gaussian_spec (xk - norm3 v) beta * window_derivative_spec (norm3 v) cutoff
             * (coord c v / norm3 v))
    with ((- gaussian_derivative_spec (xk - norm3 v) beta * window_spec (norm3 v) cutoff
           + gaussian_spec (xk - norm3 v) beta * window_derivative_spec (norm3 v) cutoff)
          * (coord c v / norm3 v)) by ring.
  apply (derivable_pt_lim_comp (fun t => norm3 (set_coord c t v))
                               (pair_term cutoff beta xk)).
  - now apply norm3_derivable.
  - rewrite set_coord_same. apply pair_term_derivable.
Qed.

Lemma raw_p_derivable (xk : R) (c : axis) (r : list (vec3 R)) (j : nat) :
  (j < length r)%nat ->
  0 < norm3 (nth j r (mk3 0 0 0)) ->
  derivable_pt_lim (fun t => raw_p (upd_coord r j c t) cutoff beta xk)
    (coord c (nth j r (mk3 0 0 0)))
    (coord c (raw_q cutoff beta xk (nth j r (mk3 0 0 0)))).
Proof.
  revert j.
  induction r as [|v r IH]; intros j Hj Hd; [simpl in Hj; lia|].
  destruct j as [|j]; cbn [nth] in *.
  - apply derivable_pt_lim_ext
      with (f := fun t => pair_term cutoff beta xk (norm3 (set_coord c t v))
                          + raw_p r cutoff beta xk).
    { intros t. cbn [upd_coord]. now rewrite raw_p_cons. }
    rewrite <- (Rplus_0_r (coord c (raw_q cutoff beta xk v))).
    apply (derivable_pt_lim_plus
             (fun t => pair_term cutoff beta xk (norm3 (set_coord c t v)))
             (fun _ => raw_p r cutoff beta xk)).
    + now apply neighbor_term_derivable.
    + apply (derivable_pt_lim_const (raw_p r cutoff beta xk)).
  - apply derivable_pt_lim_ext
      with (f := fun t => pair_term cutoff beta xk (norm3 v)
                          + raw_p (upd_coord r j c t) cutoff beta xk).
    { intros t. cbn [upd_coord]. now rewrite raw_p_cons. }
    rewrite <- (Rplus_0_l (coord c (raw_q cutoff beta xk (nth j r (mk3 0 0 0))))).
    apply (derivable_pt_lim_plus
             (fun _ => pair_term cutoff beta xk (norm3 v))
             (fun t => raw_p (upd_coord r j c t) cutoff beta xk)).
    + apply (derivable_pt_lim_const (pair_term cutoff beta xk (norm3 v))).
    + apply IH; [simpl in Hj; lia|assumption].
Qed.

End Derivatives.

(** ** Perturbing one coordinate keeps the distances in range *)

Lemma upd_coord_same (r : list (vec3 R)) (j : nat) (c : axis) :
  upd_coord r j c (coord c (nth j r (mk3 0 0 0))) = r.
Proof.
  revert j. induction r as [|v r IH]; intros [|j]; cbn [upd_coord nth];
    try reflexivity.
  - now rewrite set_coord_same.
  - now rewrite IH.
Qed.

Lemma upd_coord_Forall (P : vec3 R -> Prop) (r : list (vec3 R)) (j : nat)
  (c : axis) (t : R) :
  Forall P r -> P (set_coord c t (nth j r (mk3 0 0 0))) ->
  Forall P (upd_coord r j c t).
Proof.
  revert j. induction r as [|v r IH]; intros [|j] Hr Hj; cbn [upd_coord nth] in *;
    try assumption; inversion Hr; subst; constructor; try assumption.
  now apply IH.
Qed.

Lemma range_open (c : axis) (v : vec3 R) (cutoff : R) :
  0 < norm3 v < cutoff ->
  exists delta, 0 < delta /\
    forall t, Rabs (t - coord c v) < delta ->
      0 < norm3 (set_coord c t v) < cutoff.
Proof.
  intros [Hlo Hhi].
  assert (Hcont : continuity_pt (fun t => norm3 (set_coord c t v)) (coord c v)).
  { apply derivable_continuous_pt.
    exists (coord c v / norm3 v). now apply norm3_derivable. }
  set (eps := Rmin (norm3 v) (cutoff - norm3 v)).
  assert (Heps : 0 < eps) by (unfold eps; apply Rmin_pos; lra).
  destruct (Hcont eps Heps) as [delta [Hdelta Hclose]].
  exists delta. split; [exact Hdelta|]. intros t Ht.
  destruct (Req_dec_T t (coord c v)) as [->|Hne].
  - rewrite set_coord_same. lra.
  - assert (H : Rabs (norm3 (set_coord c t v)
                      - norm3 (set_coord c (coord c v) v)) < eps).
    { apply Hclose. split; [|exact Ht].
      split; [exact I|]. intros E. apply Hne. now symmetry. }
    rewrite set_coord_same in H.
    pose proof (Rmin_l (norm3 v) (cutoff - norm3 v)).
    pose proof (Rmin_r (norm3 v) (cutoff - norm3 v)).
    fold eps in H0, H1.
    apply Rabs_def2 in H. lra.
Qed.

(** ** Sample inputs *)

Lemma sample_r_in_range : Forall (fun rj => 0 < norm3 rj < 3) sample_r.
Proof.
  constructor; [|constructor]. unfold norm3; cbn [vx vy vz].
  replace (1 ^ 2 + 0 ^ 2 + 0 ^ 2) with 1 by ring. rewrite sqrt_1. lra.
Qed.

Lemma sample_r_nonempty : sample_r <> [].
Proof. discriminate. Qed.

Lemma half_pos : 0 < 0.5.
Proof. lra. Qed.

Lemma half_nonzero : 0.5 <> 0.
Proof. lra. Qed.

Lemma three_nonzero : 3 <> 0.
Proof. lra. Qed.

(** * The claims *)

(** C1: for every neighbour configuration whose distances all lie strictly
    between 0 and [cutoff], each entry [q[k,j,c]] of the raw Jacobian is the
    partial derivative of the raw feature [p_k] with respect to coordinate
    [c] of the relative vector [r_j]. *)
Theorem raw_jacobian_is_partial_derivative
  (r : list (vec3 R)) (cutoff alpha beta : R) :
  cutoff <> 0 -> alpha <> 0 -> beta <> 0 ->
  Forall (fun rj => 0 < norm3 rj < cutoff) r ->
  exists p q,
    rbf_descriptor r cutoff alpha beta false = Ok (p, q) /\
    length q = length p /\
    forall (k j : nat) (c : axis),
      (k < length p)%nat -> (j < length r)%nat ->
      exists dv,
        coord c (nth j (nth k q []) (mk3 NaN NaN NaN)) = Fin dv /\
        derivable_pt_lim
          (fun t => raw_feature k cutoff alpha beta (upd_coord r j c t))
          (coord c (nth j r (mk3 0 0 0))) dv.
Proof.
  intros Hc Ha Hb Hr. do 2 eexists.
  split; [now apply rbf_descriptor_raw|].
  split; [now rewrite !length_map|].
  intros k j c Hk Hj. rewrite length_map in Hk.
  set (xk := nth k (grid_points cutoff alpha) 0).
  set (rj := nth j r (mk3 0 0 0)).
  assert (Hrj : 0 < norm3 rj < cutoff).
  { rewrite Forall_forall in Hr. apply Hr. now apply nth_In. }
  exists (coord c (raw_q cutoff beta xk rj)). split.
  - rewrite nth_map_lt with (d' := 0) by assumption.
    rewrite nth_map_lt with (d' := mk3 0 0 0) by assumption.
    now rewrite coord_vmap.
  - destruct (range_open c rj cutoff Hrj) as [delta [Hdelta Hclose]].
    apply derivable_pt_lim_locally_ext
      with (f := fun t => raw_p (upd_coord r j c t) cutoff beta xk)
           (a := coord c rj - delta) (b := coord c rj + delta);
      [lra| |apply raw_p_derivable; try assumption; apply Hrj].
    intros z Hz. unfold raw_feature.
    rewrite rbf_descriptor_raw; try assumption.
    + now rewrite nth_map_lt with (d' := 0) by assumption.
    + apply upd_coord_Forall; [assumption|].
      apply Hclose. apply Rabs_def1; lra.
Qed.

(** C2: for a non-empty neighbour set with all distances strictly between 0
    and [cutoff] (and valid hyper-parameters), the descriptor returned with
    [normalized = true] has Euclidean norm exactly 1. *)
Theorem normalized_descriptor_unit_norm
  (r : list (vec3 R)) (cutoff alpha beta : R) :
  r <> [] -> 0 < alpha -> beta <> 0 ->
  Forall (fun rj => 0 < norm3 rj < cutoff) r ->
  exists p q,
    rbf_descriptor r cutoff alpha beta true = Ok (p, q) /\ xnorm p = Fin 1.
Proof.
  intros Hne Ha Hb Hr.
  pose proof (raw_norm_pos r cutoff alpha beta Hne Hr Ha) as Hpos.
  remember (sqrt _) as nrm eqn:Hn in Hpos.
  do 2 eexists. split.
  - apply rbf_descriptor_normalized with (nrm := nrm); assumption.
  - rewrite xnorm_Fin. f_equal.
    rewrite (unit_norm_sum (raw_p r cutoff beta) _ nrm Hn) by lra.
    apply sqrt_1.
Qed.

(** C3: after normalisation the component of the Jacobian along the
    descriptor is projected out: for every neighbour [j] and coordinate [c],
    the sum over the grid of [p_k * q[k,j,c]] is 0. *)
Theorem normalized_jacobian_orthogonal
  (r : list (vec3 R)) (cutoff alpha beta : R) :
  r <> [] -> 0 < alpha -> beta <> 0 ->
  Forall (fun rj => 0 < norm3 rj < cutoff) r ->
  exists p q,
    rbf_descriptor r cutoff alpha beta true = Ok (p, q) /\
    forall (j : nat) (c : axis), (j < length r)%nat ->
      xsum (map2 (fun pk qk => xmul pk (coord c (nth j qk (mk3 NaN NaN NaN)))) p q)
      = Fin 0.
Proof.
  intros Hne Ha Hb Hr.
  pose proof (raw_norm_pos r cutoff alpha beta Hne Hr Ha) as Hpos.
  remember (sqrt _) as nrm eqn:Hn in Hpos.
  do 2 eexists. split.
  - apply rbf_descriptor_normalized with (nrm := nrm); assumption.
  - intros j c Hj. rewrite map2_map_map.
    set (rj := nth j r (mk3 0 0 0)).
    set (P := raw_p r cutoff beta). set (Q := raw_q cutoff beta).
    set (xs := grid_points cutoff alpha).
    rewrite (map_ext _ (fun xk =>
               Fin (P xk / nrm
                    * (coord c (Q xk rj) / nrm
                       - P xk / nrm
                         * Rsum (map (fun xi => P xi / nrm * (coord c (Q xi rj) / nrm))
                                     xs))))).
    2:{ intros xk. rewrite nth_map_lt with (d' := mk3 0 0 0) by assumption.
        rewrite coord_vmap, coord_unit_q. reflexivity. }
    rewrite xsum_map_Fin, projected_sum. f_equal.
    rewrite (unit_norm_sum P xs nrm Hn) by lra. ring.
Qed.

(** C4: for every neighbour set with distances in (0, [cutoff]), the raw
    feature at each grid point [x_k] is the sum over the neighbours of
    [gaussian(x_k - d_j, beta) * window(d_j, cutoff)]. *)
Theorem raw_feature_formula (r : list (vec3 R)) (cutoff alpha beta : R) :
  cutoff <> 0 -> alpha <> 0 -> beta <> 0 ->
  Forall (fun rj => 0 < norm3 rj < cutoff) r ->
  exists grid p q,
    radial_grid cutoff alpha = Ok grid /\
    rbf_descriptor r cutoff alpha beta false = Ok (p, q) /\
    length p = length grid /\
    forall k : nat, (k < length grid)%nat ->
      nth k p NaN
      = Fin (Rsum (map (fun dj => gaussian_spec (nth k grid 0 - dj) beta
                                  * window_spec dj cutoff)
                       (map norm3 r))).
Proof.
  intros Hc Ha Hb Hr. do 3 eexists.
  split; [now apply radial_grid_Ok|].
  split; [now apply rbf_descriptor_raw|].
  split; [now rewrite length_map|].
  intros k Hk. rewrite nth_map_lt with (d' := 0) by assumption.
  unfold raw_p. now rewrite map_map.
Qed.





Lemma raw_jacobian_is_partial_derivative_witness :
  Forall (fun rj => 0 < norm3 rj < 3) sample_r /\
  exists p q,
    rbf_descriptor sample_r 3 0.5 0.5 false = Ok (p, q) /\
    length q = length p /\
    forall (k j : nat) (c : axis),
      (k < length p)%nat -> (j < length sample_r)%nat ->
      exists dv,
        coord c (nth j (nth k q []) (mk3 NaN NaN NaN)) = Fin dv /\
        derivable_pt_lim
          (fun t => raw_feature k 3 0.5 0.5 (upd_coord sample_r j c t))
          (coord c (nth j sample_r (mk3 0 0 0))) dv.
Proof.
  split; [exact sample_r_in_range|].
  exact (raw_jacobian_is_partial_derivative sample_r 3 0.5 0.5
           three_nonzero half_nonzero half_nonzero sample_r_in_range).
Defined.

Lemma normalized_descriptor_unit_norm_witness :
  Forall (fun rj => 0 < norm3 rj < 3) sample_r /\
  exists p q,
    rbf_descriptor sample_r 3 0.5 0.5 true = Ok (p, q) /\ xnorm p = Fin 1.
Proof.
  split; [exact sample_r_in_range|].
  exact (normalized_descriptor_unit_norm sample_r 3 0.5 0.5
           sample_r_nonempty half_pos half_nonzero sample_r_in_range).
Defined.

Lemma normalized_jacobian_orthogonal_witness :
  Forall (fun rj => 0 < norm3 rj < 3) sample_r /\
  exists p q,
    rbf_descriptor sample_r 3 0.5 0.5 true = Ok (p, q) /\
    forall (j : nat) (c : axis), (j < length sample_r)%nat ->
      xsum (map2 (fun pk qk => xmul pk (coord c (nth j qk (mk3 NaN NaN NaN)))) p q)
      = Fin 0.
Proof.
  split; [exact sample_r_in_range|].
  exact (normalized_jacobian_orthogonal sample_r 3 0.5 0.5
           sample_r_nonempty half_pos half_nonzero sample_r_in_range).
Defined.

Lemma raw_feature_formula_witness :
  Forall (fun rj => 0 < norm3 rj < 3) sample_r /\
  exists grid p q,
    radial_grid 3 0.5 = Ok grid /\
    rbf_descriptor sample_r 3 0.5 0.5 false = Ok (p, q) /\
    length p = length grid /\
    forall k : nat, (k < length grid)%nat ->
      nth k p NaN
      = Fin (Rsum (map (fun dj => gaussian_spec (nth k grid 0 - dj) 0.5
                                  * window_spec dj 3)
                       (map norm3 sample_r))).
Proof.
  split; [exact sample_r_in_range|].
  exact (raw_feature_formula sample_r 3 0.5 0.5
           three_nonzero half_nonzero half_nonzero sample_r_in_range).
Defined.


Lemma Zceil_six : Zceil ((3 - 0) / 0.5) = 6%Z.
Proof. apply Zceil_eq. lra. Qed.

Lemma grid_points_sample :
  grid_points 3 0.5
  = map (fun k => 0 + INR k * 0.5) [0; 1; 2; 3; 4; 5]%nat.
Proof. unfold grid_points. rewrite Zceil_six. reflexivity. Qed.

(** C5, as the code behaves: with normalisation requested and no neighbour
    the raw descriptor is zero at every grid point, its norm is 0, and no
    fallback is applied: every entry of the returned descriptor is the NaN of
    [0 / 0]; the returned Jacobian has no neighbour entries. *)
Theorem no_neighbors_normalized_is_nan (cutoff alpha beta : R) :
  cutoff <> 0 -> alpha <> 0 -> beta <> 0 ->
  exists grid,
    radial_grid cutoff alpha = Ok grid /\
    rbf_descriptor [] cutoff alpha beta true
    = Ok (map (fun _ => NaN) grid, map (fun _ => []) grid).
Proof.
  intros Hc Ha Hb. exists (grid_points cutoff alpha).
  split; [now apply radial_grid_Ok|now apply rbf_descriptor_no_neighbors].
Qed.

Lemma no_neighbors_normalized_is_nan_witness :
  exists grid,
    radial_grid 3 0.5 = Ok grid /\
    rbf_descriptor [] 3 0.5 0.5 true
    = Ok (map (fun _ => NaN) grid, map (fun _ => []) grid).
Proof.
  exact (no_neighbors_normalized_is_nan 3 0.5 0.5
           three_nonzero half_nonzero half_nonzero).
Defined.

(** C5 fails as stated: for [cutoff = 3], [alpha = beta = 0.5] and an empty
    neighbour array the normalised descriptor is six NaN entries, not a
    finite fallback. *)
Lemma no_neighbors_not_finite :
  rbf_descriptor [] 3 0.5 0.5 true
  = Ok ([NaN; NaN; NaN; NaN; NaN; NaN], [[]; []; []; []; []; []])
  /\ ~ Forall is_finite [NaN; NaN; NaN; NaN; NaN; NaN].
Proof.
  split.
  - rewrite rbf_descriptor_no_neighbors by lra.
    rewrite grid_points_sample. reflexivity.
  - intros H. inversion H as [|a l Ha _]. exact Ha.
Qed.

(** C6, as the code behaves: for positive [cutoff] and [alpha] with
    [alpha < cutoff] the grid has exactly [ceil(cutoff/alpha)] points, which
    is [floor(cutoff/alpha)] when [cutoff/alpha] is an integer and one more
    otherwise, and its k-th point is [k * alpha]. *)
Theorem radial_grid_points (cutoff alpha : R) :
  0 < cutoff -> 0 < alpha -> alpha < cutoff ->
  exists grid,
    radial_grid cutoff alpha = Ok grid /\
    length grid = Z.to_nat (Zceil (cutoff / alpha)) /\
    (forall k : nat, (k < length grid)%nat -> nth k grid 0 = INR k * alpha) /\
    (IZR (Zfloor (cutoff / alpha)) = cutoff / alpha ->
     length grid = Z.to_nat (Zfloor (cutoff / alpha))) /\
    (IZR (Zfloor (cutoff / alpha)) <> cutoff / alpha ->
     length grid = S (Z.to_nat (Zfloor (cutoff / alpha)))).
Proof.
  intros Hc Ha _. exists (grid_points cutoff alpha).
  assert (Hq : 0 <= cutoff / alpha)
    by (apply Rlt_le, Rdiv_lt_0_compat; assumption).
  destruct (Zceil_floor_cases (cutoff / alpha)) as [Hint Hfrac].
  pose proof (Zfloor_nonneg _ Hq) as Hfl.
  split; [apply radial_grid_Ok; lra|].
  split; [apply grid_points_length|].
  split; [apply grid_points_nth|].
  split; intros H; rewrite grid_points_length.
  - now rewrite Hint.
  - rewrite Hfrac by assumption. lia.
Qed.

Lemma radial_grid_points_witness :
  (0 < 3 /\ 0 < 0.5 /\ 0.5 < 3) /\
  exists grid,
    radial_grid 3 0.5 = Ok grid /\
    length grid = Z.to_nat (Zceil (3 / 0.5)) /\
    (forall k : nat, (k < length grid)%nat -> nth k grid 0 = INR k * 0.5) /\
    (IZR (Zfloor (3 / 0.5)) = 3 / 0.5 ->
     length grid = Z.to_nat (Zfloor (3 / 0.5))) /\
    (IZR (Zfloor (3 / 0.5)) <> 3 / 0.5 ->
     length grid = S (Z.to_nat (Zfloor (3 / 0.5)))).
Proof.
  split; [lra|].
  apply (radial_grid_points 3 0.5); lra.
Defined.

(** C6 fails as stated: for [cutoff = 3] and [alpha = 2] the grid is
    [0, 2], two points, while [floor(3/2) = 1]. *)
Lemma grid_count_not_floor :
  (0 < 3 /\ 0 < 2 /\ 2 < 3) /\
  exists grid,
    radial_grid 3 2 = Ok grid /\
    length grid = 2%nat /\
    length grid <> Z.to_nat (Zfloor (3 / 2)).
Proof.
  split; [lra|]. exists (grid_points 3 2).
  assert (Hceil : Zceil (3 / 2) = 2%Z) by (apply Zceil_eq; lra).
  assert (Hfloor : Zfloor (3 / 2) = 1%Z) by (apply Zfloor_eq; lra).
  split; [apply radial_grid_Ok; lra|].
  rewrite grid_points_length, Hceil, Hfloor. split; [reflexivity|discriminate].
Qed.




(** C8, as the code behaves: the computation fails, with the AssertionError
    of [assert all(d < cutoff)], whenever some neighbour's distance is
    [>= cutoff]; nothing is clamped or dropped. *)
Theorem distance_beyond_cutoff_raises (r : list (vec3 R))
  (cutoff alpha beta : R) (normalized : bool) :
  Exists (fun rj => cutoff <= norm3 rj) r ->
  rbf_descriptor r cutoff alpha beta normalized = Raise AssertionError.
Proof.
  intros Hr. unfold rbf_descriptor.
  rewrite forallb_Rltb_false; [reflexivity|].
  now rewrite Exists_map.
Qed.

Lemma distance_beyond_cutoff_raises_witness :
  Exists (fun rj => 1 <= norm3 rj) sample_r /\
  rbf_descriptor sample_r 1 0.5 0.5 true = Raise AssertionError.
Proof.
  assert (H : Exists (fun rj => 1 <= norm3 rj) sample_r).
  { constructor. pose proof sample_r_in_range as Hr.
    inversion Hr as [|v l Hv _]. unfold norm3 in *; cbn [vx vy vz] in *.
    replace (1 ^ 2 + 0 ^ 2 + 0 ^ 2) with 1 by ring. rewrite sqrt_1. lra. }
  split; [exact H|].
  exact (distance_beyond_cutoff_raises sample_r 1 0.5 0.5 true H).
Defined.

(** C8 fails as stated: a neighbour at distance 0 raises no error; the
    computation returns a result. *)
Lemma zero_distance_not_rejected :
  norm3 (mk3 0 0 0) = 0 /\
  exists pq, rbf_descriptor [mk3 0 0 0] 3 0.5 0.5 true = Ok pq.
Proof.
  split; [apply norm3_zero|].
  apply rbf_descriptor_returns; try lra.
  constructor; [|constructor]. rewrite norm3_zero. lra.
Qed.

(** C9: for every neighbour set with distances in (0, [cutoff]) and every
    orthogonal matrix applied to all relative vectors, the returned
    descriptor vector is unchanged. *)
Theorem descriptor_rotation_invariant (M : vec3 (vec3 R)) (r : list (vec3 R))
  (cutoff alpha beta : R) (normalized : bool) :
  orthogonal M ->
  cutoff <> 0 -> alpha <> 0 ->
  Forall (fun rj => 0 < norm3 rj < cutoff) r ->
  exists p q q',
    rbf_descriptor r cutoff alpha beta normalized = Ok (p, q) /\
    rbf_descriptor (map (mat_vec M) r) cutoff alpha beta normalized = Ok (p, q').
Proof.
  intros HM Hc Ha Hr.
  assert (Hd : map norm3 (map (mat_vec M) r) = map norm3 r).
  { rewrite map_map. apply map_ext. intros v. now apply norm3_mat_vec. }
  assert (Hlt : Forall (fun rj => norm3 rj < cutoff) r)
    by (revert Hr; apply Forall_impl; intros; lra).
  destruct (rbf_descriptor_returns r cutoff alpha beta normalized Hc Ha Hlt)
    as [[p q] Hpq].
  pose proof (descriptor_depends_on_distances _ _ cutoff alpha beta normalized Hd)
    as Hsame.
  rewrite Hpq in Hsame. unfold descriptor_of in Hsame. cbn [bind fst] in Hsame.
  destruct (rbf_descriptor (map (mat_vec M) r) cutoff alpha beta normalized)
    as [[p' q']|e]; cbn [bind fst] in Hsame; [|discriminate Hsame].
  injection Hsame as ->. now exists p, q, q'.
Qed.

Lemma quarter_turn_orthogonal : orthogonal quarter_turn.
Proof. unfold orthogonal, quarter_turn, dot3; cbn [vx vy vz]. repeat split; ring. Qed.

Lemma descriptor_rotation_invariant_witness :
  (orthogonal quarter_turn /\ Forall (fun rj => 0 < norm3 rj < 3) sample_r) /\
  exists p q q',
    rbf_descriptor sample_r 3 0.5 0.5 true = Ok (p, q) /\
    rbf_descriptor (map (mat_vec quarter_turn) sample_r) 3 0.5 0.5 true
    = Ok (p, q').
Proof.
  split; [split; [exact quarter_turn_orthogonal|exact sample_r_in_range]|].
  exact (descriptor_rotation_invariant quarter_turn sample_r 3 0.5 0.5 true
           quarter_turn_orthogonal three_nonzero half_nonzero sample_r_in_range).
Defined.

(** * Further properties of the code *)

(** ** Arithmetic of extended reals *)

Lemma xadd_comm (a b : xreal) : xadd a b = xadd b a.
Proof. destruct a, b; simpl; try reflexivity. f_equal. ring. Qed.

Lemma xadd_assoc (a b c : xreal) : xadd a (xadd b c) = xadd (xadd a b) c.
Proof. destruct a, b, c; simpl; try reflexivity. f_equal. ring. Qed.

Lemma xadd_0_l (a : xreal) : xadd (Fin 0) a = a.
Proof. destruct a; simpl; try reflexivity. f_equal. ring. Qed.

Lemma xadd_NaN_l (a : xreal) : xadd NaN a = NaN.
Proof. destruct a; reflexivity. Qed.

Lemma xmul_NaN_l (a : xreal) : xmul NaN a = NaN.
Proof. destruct a; reflexivity. Qed.

Lemma xmul_NaN_r (a : xreal) : xmul a NaN = NaN.
Proof. destruct a; reflexivity. Qed.

Lemma xdiv_NaN_l (a : xreal) : xdiv NaN a = NaN.
Proof. destruct a; reflexivity. Qed.

Lemma xsum_app (l1 l2 : list xreal) :
  xsum (l1 ++ l2) = xadd (xsum l1) (xsum l2).
Proof.
  unfold xsum. induction l1 as [|a l1 IH]; cbn [app fold_right].
  - now rewrite xadd_0_l.
  - now rewrite IH, xadd_assoc.
Qed.

Lemma xsum_Permutation (l l' : list xreal) :
  Permutation l l' -> xsum l = xsum l'.
Proof.
  unfold xsum.
  induction 1 as [|a l l' _ IH|a b l|l l' l'' _ IH1 _ IH2]; cbn [fold_right].
  - reflexivity.
  - now rewrite IH.
  - rewrite !xadd_assoc. f_equal. apply xadd_comm.
  - now rewrite IH1.
Qed.

(** ** Arrays combined elementwise *)

Lemma map2_length_min {A B C : Type} (f : A -> B -> C) (l1 : list A)
  (l2 : list B) :
  length (map2 f l1 l2) = Nat.min (length l1) (length l2).
Proof.
  revert l2. induction l1 as [|a l1 IH]; intros [|b l2]; simpl; try reflexivity.
  now rewrite IH.
Qed.

Lemma nth_map2 {A B C : Type} (f : A -> B -> C) (l1 : list A) (l2 : list B)
  (j : nat) (dc : C) (da : A) (db : B) :
  (j < length l1)%nat -> (j < length l2)%nat ->
  nth j (map2 f l1 l2) dc = f (nth j l1 da) (nth j l2 db).
Proof.
  revert l2 j. induction l1 as [|a l1 IH]; intros [|b l2] [|j] H1 H2;
    simpl in *; try lia; [reflexivity|].
  apply IH; lia.
Qed.

(** ** The arrays of [rbf_descriptor], whatever the distances *)

Lemma rbf_descriptor_entries (r : list (vec3 R)) (cutoff alpha beta : R) :
  cutoff <> 0 -> alpha <> 0 ->
  Forall (fun rj => norm3 rj < cutoff) r ->
  rbf_descriptor r cutoff alpha beta false
  = Ok (map (raw_p_x r cutoff beta) (grid_points cutoff alpha),
        map (fun xk => map (raw_q_x cutoff beta xk) r)
            (grid_points cutoff alpha)).
Proof.
  intros Hc Ha Hr. unfold rbf_descriptor.
  rewrite forallb_Rltb by now rewrite Forall_map.
  rewrite radial_grid_Ok by assumption. cbn [bind].
  unfold smooth_cutoff_derivative.
  destruct (Req_dec_T cutoff 0) as [E|_]; [contradiction|]. cbn [bind].
  unfold gaussian, gaussian_derivative, smooth_cutoff.
  rewrite !map_map. f_equal. f_equal.
  - apply map_ext. intros xk. unfold raw_p_x.
    now rewrite !map_map, map2_map_map.
  - rewrite map2_map_map. apply map_ext. intros xk.
    rewrite !map_map.
    rewrite (map2_id_map (fun rj dj => vmap (fun e => xdiv (Fin e) (Fin dj)) rj)
               norm3 r).
    rewrite !map2_map_map. apply map_ext. intros rj. reflexivity.
Qed.

Lemma forallb_Rltb_iff (d : list R) (cutoff : R) :
  forallb (fun dj => Rltb dj cutoff) d = true
  <-> Forall (fun dj => dj < cutoff) d.
Proof.
  rewrite forallb_forall, Forall_forall. split; intros H x Hx.
  - specialize (H x Hx). unfold Rltb in H.
    destruct (Rlt_dec x cutoff); [assumption|discriminate].
  - apply Rltb_true. now apply H.
Qed.

Lemma rbf_descriptor_Ok_inv (r : list (vec3 R)) (cutoff alpha beta : R)
  (normalized : bool) pq :
  rbf_descriptor r cutoff alpha beta normalized = Ok pq ->
  Forall (fun rj => norm3 rj < cutoff) r /\ alpha <> 0 /\ cutoff <> 0.
Proof.
  unfold rbf_descriptor. destruct (forallb _ _) eqn:Hall; [|discriminate].
  apply forallb_Rltb_iff in Hall. rewrite Forall_map in Hall.
  unfold radial_grid, smooth_cutoff_derivative.
  destruct (Req_dec_T alpha 0); cbn [bind]; [discriminate|].
  destruct (Req_dec_T cutoff 0); cbn [bind]; [discriminate|].
  auto.
Qed.

(** ** Shapes *)

Lemma Forall_map2 {A B C : Type} (P : C -> Prop) (f : A -> B -> C)
  (l1 : list A) (l2 : list B) :
  (forall a b, In a l1 -> In b l2 -> P (f a b)) -> Forall P (map2 f l1 l2).
Proof.
  revert l2. induction l1 as [|a l1 IH]; intros [|b l2] H; simpl;
    try constructor.
  - apply H; now left.
  - apply IH. intros a' b' Ha Hb. apply H; now right.
Qed.

Lemma sum_axis0_length (n : nat) (m : list (list (vec3 xreal))) :
  Forall (fun row => length row = n) m -> length (sum_axis0 n m) = n.
Proof.
  unfold sum_axis0. induction 1 as [|row m Hrow _ IH]; cbn [fold_right].
  - apply repeat_length.
  - rewrite map2_length_min, IH, Hrow. apply Nat.min_id.
Qed.

Lemma normalize_shape (n : nat) (p : list xreal) (q : list (list (vec3 xreal))) :
  length q = length p -> Forall (fun qk => length qk = n) q ->
  length (fst (normalize n p q)) = length p /\
  length (snd (normalize n p q)) = length p /\
  Forall (fun qk => length qk = n) (snd (normalize n p q)).
Proof.
  intros Hlen Hrows. unfold normalize. cbn [fst snd].
  assert (Hrows1 : Forall (fun qk => length qk = n)
                     (map (map (vmap (fun e => xdiv e (xnorm p)))) q)).
  { rewrite Forall_map. revert Hrows. apply Forall_impl.
    intros qk Hk. now rewrite length_map. }
  split; [apply length_map|]. split.
  - rewrite map2_length_min, !length_map, Hlen. apply Nat.min_id.
  - apply Forall_map2. intros pk qk _ Hqk.
    rewrite Forall_forall in Hrows1.
    rewrite map2_length_min, (Hrows1 qk Hqk), sum_axis0_length.
    + apply Nat.min_id.
    + apply Forall_map2. intros pk' qk' _ Hqk'.
      rewrite length_map. now apply Hrows1.
Qed.

(** X2: whenever [rbf_descriptor] returns, with or without normalisation
    and whatever the values, [p] has one entry per grid point
    ([ceil(cutoff/alpha)] of them) and [q] has one row per grid point with
    one entry per neighbour. *)
Theorem rbf_descriptor_shape (r : list (vec3 R)) (cutoff alpha beta : R)
  (normalized : bool) (p : list xreal) (q : list (list (vec3 xreal))) :
  rbf_descriptor r cutoff alpha beta normalized = Ok (p, q) ->
  length p = Z.to_nat (Zceil (cutoff / alpha)) /\
  length q = length p /\
  Forall (fun qk => length qk = length r) q.
Proof.
  intros Hres.
  destruct (rbf_descriptor_Ok_inv _ _ _ _ _ _ Hres) as (Hr & Ha & Hc).
  pose proof (rbf_descriptor_entries r cutoff alpha beta Hc Ha Hr) as Hraw.
  set (p0 := map (raw_p_x r cutoff beta) (grid_points cutoff alpha)) in *.
  set (q0 := map (fun xk => map (raw_q_x cutoff beta xk) r)
                 (grid_points cutoff alpha)) in *.
  assert (Hp0 : length p0 = Z.to_nat (Zceil (cutoff / alpha)))
    by (unfold p0; now rewrite length_map, grid_points_length).
  assert (Hq0 : length q0 = length p0)
    by (unfold p0, q0; now rewrite !length_map).
  assert (Hrows0 : Forall (fun qk => length qk = length r) q0).
  { unfold q0. rewrite Forall_map, Forall_forall. intros xk _.
    apply length_map. }
  destruct normalized.
  - rewrite rbf_descriptor_normalize, Hraw in Hres. cbn [bind fst snd] in Hres.
    destruct (normalize_shape (length r) p0 q0 Hq0 Hrows0) as (H1 & H2 & H3).
    destruct (normalize (length r) p0 q0) as [p1 q1]. cbn [fst snd] in *.
    injection Hres as <- <-. repeat split; congruence.
  - rewrite Hraw in Hres. injection Hres as <- <-. auto.
Qed.

Lemma rbf_descriptor_shape_witness :
  let p := map (raw_p_x sample_r 3 0.5) (grid_points 3 0.5) in
  let q := map (fun xk => map (raw_q_x 3 0.5 xk) sample_r) (grid_points 3 0.5) in
  rbf_descriptor sample_r 3 0.5 0.5 false = Ok (p, q) /\
  length p = Z.to_nat (Zceil (3 / 0.5)) /\
  length q = length p /\
  Forall (fun qk => length qk = length sample_r) q.
Proof.
  assert (H : rbf_descriptor sample_r 3 0.5 0.5 false
              = Ok (map (raw_p_x sample_r 3 0.5) (grid_points 3 0.5),
                    map (fun xk => map (raw_q_x 3 0.5 xk) sample_r)
                        (grid_points 3 0.5))).
  { apply rbf_descriptor_entries; [lra|lra|].
    generalize sample_r_in_range. apply Forall_impl. intros; lra. }
  exact (conj H (rbf_descriptor_shape sample_r 3 0.5 0.5 false _ _ H)).
Defined.

(** ** A neighbour at distance zero *)

Lemma norm3_zero_inv (v : vec3 R) : norm3 v = 0 -> v = mk3 0 0 0.
Proof.
  destruct v as [x y z]. unfold norm3; cbn [vx vy vz]. intros H.
  apply sqrt_eq_0 in H; [|nra].
  assert (x = 0) by nra. assert (y = 0) by nra. assert (z = 0) by nra.
  now subst.
Qed.

Lemma raw_q_x_zero (cutoff beta xk : R) :
  raw_q_x cutoff beta xk (mk3 0 0 0) = mk3 NaN NaN NaN.
Proof.
  unfold raw_q_x. cbv zeta. rewrite norm3_zero.
  unfold vmap, vmap2; cbn [vx vy vz].
  rewrite xdiv_zero_zero, !xmul_NaN_r, !xmul_NaN_l. reflexivity.
Qed.

Lemma normalize_nan_column (n j : nat) (p : list xreal)
  (q : list (list (vec3 xreal))) (dflt : vec3 xreal) :
  (j < n)%nat ->
  Forall (fun qk => length qk = n) q ->
  Forall (fun qk => nth j qk dflt = mk3 NaN NaN NaN) q ->
  Forall (fun qk => nth j qk dflt = mk3 NaN NaN NaN) (snd (normalize n p q)).
Proof.
  intros Hj Hrows Hnan. unfold normalize. cbn [snd].
  set (norm := xnorm p). set (p1 := map (fun pk => xdiv pk norm) p).
  set (q1 := map (map (vmap (fun e => xdiv e norm))) q).
  assert (Hrows1 : Forall (fun qk => length qk = n) q1).
  { unfold q1. rewrite Forall_map. revert Hrows. apply Forall_impl.
    intros qk Hk. now rewrite length_map. }
  assert (Hnan1 : Forall (fun qk => nth j qk dflt = mk3 NaN NaN NaN) q1).
  { unfold q1. rewrite Forall_map.
    rewrite Forall_forall in *. intros qk Hqk.
    rewrite nth_map_lt with (d' := dflt) by (rewrite (Hrows qk Hqk); exact Hj).
    rewrite (Hnan qk Hqk). unfold vmap; cbn [vx vy vz].
    now rewrite xdiv_NaN_l. }
  set (s := sum_axis0 n (map2 (fun pk qk => map (vmap (xmul pk)) qk) p1 q1)).
  assert (Hs : length s = n).
  { apply sum_axis0_length. apply Forall_map2. intros pk qk _ Hqk.
    rewrite length_map. rewrite Forall_forall in Hrows1. now apply Hrows1. }
  apply Forall_map2. intros pk qk _ Hqk.
  rewrite Forall_forall in Hrows1, Hnan1.
  rewrite nth_map2 with (da := dflt) (db := dflt)
    by (rewrite ?(Hrows1 qk Hqk), ?Hs; exact Hj).
  rewrite (Hnan1 qk Hqk). unfold vmap2, xsub; cbn [vx vy vz].
  now rewrite !xadd_NaN_l.
Qed.

(** X3: a neighbour at distance 0 is not rejected, but whenever
    [rbf_descriptor] returns, with or without normalisation, every Jacobian
    row of such a neighbour is (NaN, NaN, NaN): its unit vector is [0 / 0]. *)
Theorem zero_distance_jacobian_nan (r : list (vec3 R)) (cutoff alpha beta : R)
  (normalized : bool) (p : list xreal) (q : list (list (vec3 xreal)))
  (j : nat) :
  rbf_descriptor r cutoff alpha beta normalized = Ok (p, q) ->
  (j < length r)%nat ->
  norm3 (nth j r (mk3 0 0 0)) = 0 ->
  Forall (fun qk => nth j qk (mk3 (Fin 0) (Fin 0) (Fin 0)) = mk3 NaN NaN NaN) q.
Proof.
  intros Hres Hj Hd.
  destruct (rbf_descriptor_Ok_inv _ _ _ _ _ _ Hres) as (Hr & Ha & Hc).
  pose proof (rbf_descriptor_entries r cutoff alpha beta Hc Ha Hr) as Hraw.
  set (p0 := map (raw_p_x r cutoff beta) (grid_points cutoff alpha)) in *.
  set (q0 := map (fun xk => map (raw_q_x cutoff beta xk) r)
                 (grid_points cutoff alpha)) in *.
  assert (Hnan0 : Forall (fun qk => nth j qk (mk3 (Fin 0) (Fin 0) (Fin 0))
                                    = mk3 NaN NaN NaN) q0).
  { unfold q0. rewrite Forall_map, Forall_forall. intros xk _.
    rewrite nth_map_lt with (d' := mk3 0 0 0) by assumption.
    rewrite (norm3_zero_inv _ Hd). apply raw_q_x_zero. }
  destruct normalized.
  - rewrite rbf_descriptor_normalize, Hraw in Hres. cbn [bind fst snd] in Hres.
    assert (Hrows0 : Forall (fun qk => length qk = length r) q0).
    { unfold q0. rewrite Forall_map, Forall_forall. intros xk _.
      apply length_map. }
    pose proof (normalize_nan_column (length r) j p0 q0 _ Hj Hrows0 Hnan0) as H.
    destruct (normalize (length r) p0 q0) as [p1 q1]. cbn [snd] in H.
    now injection Hres as <- <-.
  - rewrite Hraw in Hres. now injection Hres as <- <-.
Qed.

Lemma zero_distance_jacobian_nan_witness :
  let p := map (raw_p_x [mk3 0 0 0] 3 0.5) (grid_points 3 0.5) in
  let q := map (fun xk => map (raw_q_x 3 0.5 xk) [mk3 0 0 0]) (grid_points 3 0.5) in
  (rbf_descriptor [mk3 0 0 0] 3 0.5 0.5 false = Ok (p, q) /\
   (0 < length [mk3 0 0 0])%nat /\
   norm3 (nth 0 [mk3 0 0 0] (mk3 0 0 0)) = 0) /\
  Forall (fun qk => nth 0 qk (mk3 (Fin 0) (Fin 0) (Fin 0)) = mk3 NaN NaN NaN) q.
Proof.
  assert (H : rbf_descriptor [mk3 0 0 0] 3 0.5 0.5 false
              = Ok (map (raw_p_x [mk3 0 0 0] 3 0.5) (grid_points 3 0.5),
                    map (fun xk => map (raw_q_x 3 0.5 xk) [mk3 0 0 0])
                        (grid_points 3 0.5))).
  { apply rbf_descriptor_entries; [lra|lra|].
    constructor; [rewrite norm3_zero; lra|constructor]. }
  assert (Hlen : (0 < length [mk3 0 0 0])%nat) by (simpl; lia).
  exact (conj (conj H (conj Hlen norm3_zero))
           (zero_distance_jacobian_nan [mk3 0 0 0] 3 0.5 0.5 false _ _ 0%nat
              H Hlen norm3_zero)).
Defined.

(** ** The raw descriptor for arbitrary distances *)

Lemma raw_p_x_Fin (r : list (vec3 R)) (cutoff beta xk : R) :
  cutoff <> 0 -> beta <> 0 ->
  raw_p_x r cutoff beta xk = Fin (raw_p r cutoff beta xk).
Proof.
  intros Hc Hb. unfold raw_p_x, raw_p, window1. rewrite <- xsum_map_Fin.
  f_equal. apply map_ext. intros rj.
  now rewrite gaussian1_Fin, window_Fin.
Qed.

Lemma raw_p_nonneg (r : list (vec3 R)) (cutoff beta xk : R) :
  0 <= raw_p r cutoff beta xk.
Proof.
  unfold raw_p, Rsum. induction r as [|rj r IH]; simpl; [lra|].
  pose proof (gaussian_spec_pos (xk - norm3 rj) beta) as Hg.
  assert (Hw : 0 <= window_spec (norm3 rj) cutoff)
    by (unfold window_spec; apply pow2_ge_0).
  nra.
Qed.

(** X4: without normalisation and for [beta <> 0], whenever
    [rbf_descriptor] returns, every [p[k]] is the finite, non-negative sum
    over the neighbours of [gaussian(x_k - d_j, beta) * window(d_j, cutoff)],
    also when some distance is 0. *)
Theorem raw_descriptor_finite (r : list (vec3 R)) (cutoff alpha beta : R)
  (p : list xreal) (q : list (list (vec3 xreal))) :
  beta <> 0 ->
  rbf_descriptor r cutoff alpha beta false = Ok (p, q) ->
  p = map (fun xk => Fin (raw_p r cutoff beta xk)) (grid_points cutoff alpha)
  /\ Forall (fun pk => exists v, pk = Fin v /\ 0 <= v) p.
Proof.
  intros Hb Hres.
  destruct (rbf_descriptor_Ok_inv _ _ _ _ _ _ Hres) as (Hr & Ha & Hc).
  rewrite (rbf_descriptor_entries r cutoff alpha beta Hc Ha Hr) in Hres.
  injection Hres as <- _.
  assert (E : map (raw_p_x r cutoff beta) (grid_points cutoff alpha)
              = map (fun xk => Fin (raw_p r cutoff beta xk))
                    (grid_points cutoff alpha))
    by (apply map_ext; intros xk; now apply raw_p_x_Fin).
  rewrite E. split; [reflexivity|].
  rewrite Forall_map, Forall_forall. intros xk _.
  eexists. split; [reflexivity|apply raw_p_nonneg].
Qed.

Lemma raw_descriptor_finite_witness :
  let p := map (raw_p_x [mk3 0 0 0] 3 0.5) (grid_points 3 0.5) in
  let q := map (fun xk => map (raw_q_x 3 0.5 xk) [mk3 0 0 0]) (grid_points 3 0.5) in
  (0.5 <> 0 /\ rbf_descriptor [mk3 0 0 0] 3 0.5 0.5 false = Ok (p, q)) /\
  p = map (fun xk => Fin (raw_p [mk3 0 0 0] 3 0.5 xk)) (grid_points 3 0.5) /\
  Forall (fun pk => exists v, pk = Fin v /\ 0 <= v) p.
Proof.
  assert (H : rbf_descriptor [mk3 0 0 0] 3 0.5 0.5 false
              = Ok (map (raw_p_x [mk3 0 0 0] 3 0.5) (grid_points 3 0.5),
                    map (fun xk => map (raw_q_x 3 0.5 xk) [mk3 0 0 0])
                        (grid_points 3 0.5))).
  { apply rbf_descriptor_entries; [lra|lra|].
    constructor; [rewrite norm3_zero; lra|constructor]. }
  exact (conj (conj half_nonzero H)
           (raw_descriptor_finite [mk3 0 0 0] 3 0.5 0.5 _ _ half_nonzero H)).
Defined.

(** ** Neighbour sets put together *)

(** X5: the raw descriptor is additive over neighbour sets: if
    [rbf_descriptor] returns for [r1] and for [r2], it returns for their
    concatenation, with the entrywise sum of the two descriptors and, per
    grid point, the two Jacobian rows one after the other. *)
Theorem raw_descriptor_additive (r1 r2 : list (vec3 R)) (cutoff alpha beta : R)
  (p1 p2 : list xreal) (q1 q2 : list (list (vec3 xreal))) :
  rbf_descriptor r1 cutoff alpha beta false = Ok (p1, q1) ->
  rbf_descriptor r2 cutoff alpha beta false = Ok (p2, q2) ->
  rbf_descriptor (r1 ++ r2) cutoff alpha beta false
  = Ok (map2 xadd p1 p2, map2 (@app (vec3 xreal)) q1 q2).
Proof.
  intros H1 H2.
  destruct (rbf_descriptor_Ok_inv _ _ _ _ _ _ H1) as (Hr1 & Ha & Hc).
  destruct (rbf_descriptor_Ok_inv _ _ _ _ _ _ H2) as (Hr2 & _ & _).
  rewrite (rbf_descriptor_entries r1 cutoff alpha beta Hc Ha Hr1) in H1.
  rewrite (rbf_descriptor_entries r2 cutoff alpha beta Hc Ha Hr2) in H2.
  injection H1 as <- <-. injection H2 as <- <-.
  rewrite rbf_descriptor_entries
    by (try assumption; apply Forall_app; now split).
  rewrite !map2_map_map. f_equal. f_equal.
  - apply map_ext. intros xk. unfold raw_p_x.
    now rewrite map_app, xsum_app.
  - apply map_ext. intros xk. apply map_app.
Qed.

Lemma raw_descriptor_additive_witness :
  let p := map (raw_p_x sample_r 3 0.5) (grid_points 3 0.5) in
  let q := map (fun xk => map (raw_q_x 3 0.5 xk) sample_r) (grid_points 3 0.5) in
  rbf_descriptor sample_r 3 0.5 0.5 false = Ok (p, q) /\
  rbf_descriptor (sample_r ++ sample_r) 3 0.5 0.5 false
  = Ok (map2 xadd p p, map2 (@app (vec3 xreal)) q q).
Proof.
  assert (H : rbf_descriptor sample_r 3 0.5 0.5 false
              = Ok (map (raw_p_x sample_r 3 0.5) (grid_points 3 0.5),
                    map (fun xk => map (raw_q_x 3 0.5 xk) sample_r)
                        (grid_points 3 0.5))).
  { apply rbf_descriptor_entries; [lra|lra|].
    generalize sample_r_in_range. apply Forall_impl. intros; lra. }
  exact (conj H (raw_descriptor_additive sample_r sample_r 3 0.5 0.5 _ _ _ _ H H)).
Defined.

(** ** Reordering the neighbours *)

Lemma map2_map_r {A B B' C : Type} (f : A -> B -> C) (g : B' -> B)
  (l1 : list A) (l2 : list B') :
  map2 f l1 (map g l2) = map2 (fun a b => f a (g b)) l1 l2.
Proof.
  revert l2. induction l1 as [|a l1 IH]; intros [|b l2]; simpl; try reflexivity.
  now rewrite IH.
Qed.

Lemma map_map2 {A B C D : Type} (g : C -> D) (f : A -> B -> C)
  (l1 : list A) (l2 : list B) :
  map g (map2 f l1 l2) = map2 (fun a b => g (f a b)) l1 l2.
Proof.
  revert l2. induction l1 as [|a l1 IH]; intros [|b l2]; simpl; try reflexivity.
  now rewrite IH.
Qed.

Lemma map2_ext_in {A B C : Type} (f g : A -> B -> C) (l1 : list A)
  (l2 : list B) :
  (forall a b, In a l1 -> In b l2 -> f a b = g a b) ->
  map2 f l1 l2 = map2 g l1 l2.
Proof.
  revert l2. induction l1 as [|a l1 IH]; intros [|b l2] H; simpl;
    try reflexivity.
  rewrite H by now left. f_equal. apply IH.
  intros a' b' Ha Hb. apply H; now right.
Qed.

Lemma reindex_seq {A : Type} (d : A) (l : list A) :
  reindex d (seq 0 (length l)) l = l.
Proof.
  unfold reindex. apply nth_ext with (d := d) (d' := d).
  - now rewrite length_map, length_seq.
  - intros i Hi. rewrite length_map, length_seq in Hi.
    rewrite nth_map_lt with (d' := O) by now rewrite length_seq.
    now rewrite seq_nth.
Qed.

Section Reindex.

Variable sigma : list nat.
Variable n : nat.
Hypothesis sigma_range : forall i, In i sigma -> (i < n)%nat.
Hypothesis sigma_length : length sigma = n.

Lemma reindex_map {A B : Type} (f : A -> B) (l : list A) (d : A) (d' : B) :
  length l = n -> map f (reindex d sigma l) = reindex d' sigma (map f l).
Proof.
  intros Hl. unfold reindex. rewrite map_map. apply map_ext_in.
  intros i Hi. symmetry. apply nth_map_lt. rewrite Hl. now apply sigma_range.
Qed.

Lemma reindex_map2 {A B C : Type} (f : A -> B -> C) (l1 : list A)
  (l2 : list B) (d1 : A) (d2 : B) (d : C) :
  length l1 = n -> length l2 = n ->
  map2 f (reindex d1 sigma l1) (reindex d2 sigma l2)
  = reindex d sigma (map2 f l1 l2).
Proof.
  intros H1 H2. unfold reindex. rewrite map2_map_map. apply map_ext_in.
  intros i Hi. symmetry.
  apply nth_map2; [rewrite H1|rewrite H2]; now apply sigma_range.
Qed.

Lemma reindex_repeat {A : Type} (z d : A) :
  reindex d sigma (repeat z n) = repeat z n.
Proof.
  assert (H : forall s, (forall i, In i s -> (i < n)%nat) ->
                        reindex d s (repeat z n) = repeat z (length s)).
  { unfold reindex. induction s as [|i s IH]; intros Hs; simpl; [reflexivity|].
    rewrite IH by (intros k Hk; apply Hs; now right).
    f_equal. apply nth_repeat_lt. apply Hs. now left. }
  rewrite (H sigma sigma_range). now rewrite sigma_length.
Qed.

Lemma sum_axis0_reindex (d : vec3 xreal) (m : list (list (vec3 xreal))) :
  Forall (fun row => length row = n) m ->
  sum_axis0 n (map (reindex d sigma) m) = reindex d sigma (sum_axis0 n m).
Proof.
  intros Hm. induction Hm as [|row m Hrow Hm IH].
  - unfold sum_axis0. cbn [map fold_right]. symmetry. apply reindex_repeat.
  - unfold sum_axis0 in *. cbn [map fold_right]. rewrite IH.
    apply reindex_map2; [exact Hrow|].
    now apply (sum_axis0_length n m).
Qed.

Lemma normalize_reindex (d : vec3 xreal) (p : list xreal)
  (q : list (list (vec3 xreal))) :
  Forall (fun qk => length qk = n) q ->
  normalize n p (map (reindex d sigma) q)
  = (fst (normalize n p q), map (reindex d sigma) (snd (normalize n p q))).
Proof.
  intros Hrows. unfold normalize. cbn [fst snd].
  set (norm := xnorm p). set (p1 := map (fun pk => xdiv pk norm) p).
  set (q1 := map (map (vmap (fun e => xdiv e norm))) q).
  assert (Hrows1 : Forall (fun qk => length qk = n) q1).
  { unfold q1. rewrite Forall_map. revert Hrows. apply Forall_impl.
    intros qk Hk. now rewrite length_map. }
  assert (Hq1 : map (map (vmap (fun e => xdiv e norm))) (map (reindex d sigma) q)
                = map (reindex d sigma) q1).
  { unfold q1. rewrite !map_map. apply map_ext_in. intros qk Hqk.
    rewrite Forall_forall in Hrows. now apply reindex_map, Hrows. }
  rewrite Hq1. clear Hq1.
  set (m := map2 (fun pk qk => map (vmap (xmul pk)) qk) p1 q1).
  assert (Hm : map2 (fun pk qk => map (vmap (xmul pk)) qk) p1
                 (map (reindex d sigma) q1)
               = map (reindex d sigma) m).
  { unfold m. rewrite map2_map_r, map_map2. apply map2_ext_in.
    intros pk qk _ Hqk. rewrite Forall_forall in Hrows1.
    now apply reindex_map, Hrows1. }
  rewrite Hm. clear Hm.
  assert (Hmrows : Forall (fun row => length row = n) m).
  { unfold m. apply Forall_map2. intros pk qk _ Hqk.
    rewrite length_map. rewrite Forall_forall in Hrows1. now apply Hrows1. }
  rewrite sum_axis0_reindex by assumption.
  f_equal. rewrite map2_map_r, map_map2. apply map2_ext_in.
  intros pk qk _ Hqk. rewrite Forall_forall in Hrows1.
  apply reindex_map2; [now apply Hrows1|now apply sum_axis0_length].
Qed.

End Reindex.

Lemma Permutation_reindex {A : Type} (d : A) (sigma : list nat) (l : list A) :
  Permutation sigma (seq 0 (length l)) -> Permutation (reindex d sigma l) l.
Proof.
  intros Hs. rewrite <- (reindex_seq d l) at 2.
  unfold reindex. now apply Permutation_map.
Qed.

(** X6: reordering the neighbours by a permutation [sigma] of their indices
    leaves the descriptor unchanged and reorders every Jacobian row the same
    way, with or without normalisation, whenever [rbf_descriptor] returns. *)
Theorem rbf_descriptor_permutation (sigma : list nat) (r : list (vec3 R))
  (cutoff alpha beta : R) (normalized : bool) (p : list xreal)
  (q : list (list (vec3 xreal))) :
  Permutation sigma (seq 0 (length r)) ->
  rbf_descriptor r cutoff alpha beta normalized = Ok (p, q) ->
  rbf_descriptor (reindex (mk3 0 0 0) sigma r) cutoff alpha beta normalized
  = Ok (p, map (reindex (mk3 NaN NaN NaN) sigma) q).
Proof.
  intros Hs Hres.
  destruct (rbf_descriptor_Ok_inv _ _ _ _ _ _ Hres) as (Hr & Ha & Hc).
  pose proof (Permutation_reindex (mk3 0 0 0) sigma r Hs) as Hperm.
  assert (Hrange : forall i, In i sigma -> (i < length r)%nat).
  { intros i Hi. apply (Permutation_in _ Hs) in Hi. apply in_seq in Hi. lia. }
  assert (Hlen : length sigma = length r).
  { rewrite (Permutation_length Hs). apply length_seq. }
  assert (Hr' : Forall (fun rj => norm3 rj < cutoff) (reindex (mk3 0 0 0) sigma r)).
  { apply (Permutation_Forall (Permutation_sym Hperm)). exact Hr. }
  assert (Hraw' : rbf_descriptor (reindex (mk3 0 0 0) sigma r) cutoff alpha beta false
                  = Ok (map (raw_p_x r cutoff beta) (grid_points cutoff alpha),
                        map (reindex (mk3 NaN NaN NaN) sigma)
                            (map (fun xk => map (raw_q_x cutoff beta xk) r)
                                 (grid_points cutoff alpha)))).
  { rewrite rbf_descriptor_entries by assumption. f_equal. f_equal.
    - apply map_ext. intros xk. unfold raw_p_x.
      apply xsum_Permutation. now apply Permutation_map.
    - rewrite map_map. apply map_ext. intros xk.
      apply (reindex_map sigma (length r) Hrange). reflexivity. }
  pose proof (rbf_descriptor_entries r cutoff alpha beta Hc Ha Hr) as Hraw.
  destruct normalized.
  - rewrite rbf_descriptor_normalize, Hraw in Hres.
    rewrite rbf_descriptor_normalize, Hraw'. cbn [bind fst snd] in *.
    replace (length (reindex (mk3 0 0 0) sigma r)) with (length r)
      by (unfold reindex; now rewrite length_map).
    rewrite (normalize_reindex sigma (length r) Hrange Hlen).
    + set (res := normalize (length r) _ _) in *.
      assert (E : res = (p, q)) by congruence. now rewrite E.
    + rewrite Forall_map, Forall_forall. intros xk _. apply length_map.
  - rewrite Hraw in Hres. injection Hres as <- <-. exact Hraw'.
Qed.

Lemma rbf_descriptor_permutation_witness :
  let r := [mk3 1 0 0; mk3 0 2 0] in
  let p := map (raw_p_x r 3 0.5) (grid_points 3 0.5) in
  let q := map (fun xk => map (raw_q_x 3 0.5 xk) r) (grid_points 3 0.5) in
  (Permutation [1; 0]%nat (seq 0 (length r)) /\
   rbf_descriptor r 3 0.5 0.5 false = Ok (p, q)) /\
  rbf_descriptor (reindex (mk3 0 0 0) [1; 0]%nat r) 3 0.5 0.5 false
  = Ok (p, map (reindex (mk3 NaN NaN NaN) [1; 0]%nat) q).
Proof.
  assert (Hs : Permutation [1; 0]%nat (seq 0 (length [mk3 1 0 0; mk3 0 2 0])))
    by apply perm_swap.
  assert (H : rbf_descriptor [mk3 1 0 0; mk3 0 2 0] 3 0.5 0.5 false
              = Ok (map (raw_p_x [mk3 1 0 0; mk3 0 2 0] 3 0.5) (grid_points 3 0.5),
                    map (fun xk => map (raw_q_x 3 0.5 xk) [mk3 1 0 0; mk3 0 2 0])
                        (grid_points 3 0.5))).
  { apply rbf_descriptor_entries; [lra|lra|].
    repeat constructor; unfold norm3; cbn [vx vy vz].
    - replace (1 ^ 2 + 0 ^ 2 + 0 ^ 2) with 1 by ring. rewrite sqrt_1. lra.
    - replace (0 ^ 2 + 2 ^ 2 + 0 ^ 2) with (2 * 2) by ring.
      rewrite sqrt_square by lra. lra. }
  exact (conj (conj Hs H)
           (rbf_descriptor_permutation [1; 0]%nat [mk3 1 0 0; mk3 0 2 0]
              3 0.5 0.5 false _ _ Hs H)).
Defined.

(** ** The kernel functions and their derivative functions *)

Lemma Forall2_map_r {A B : Type} (P : A -> B -> Prop) (f : A -> B)
  (l : list A) :
  (forall a, P a (f a)) -> Forall2 P l (map f l).
Proof. intros H. induction l; simpl; constructor; auto. Qed.

Lemma gaussian_derivative1_Fin (x beta : R) :
  beta <> 0 ->
  gaussian_derivative1 x beta = Fin (gaussian_derivative_spec x beta).
Proof.
  intros Hb. unfold gaussian_derivative1, gaussian_derivative_spec.
  rewrite gaussian1_Fin by assumption.
  rewrite xdiv_Fin by (apply pow_nonzero; assumption).
  reflexivity.
Qed.

(** X7: for [beta <> 0], every entry of [gaussian_derivative(x, beta)] is
    finite and is the derivative, at the corresponding entry of [x], of the
    value [gaussian] computes. *)
Theorem gaussian_derivative_correct (x : list (list R)) (beta : R) :
  beta <> 0 ->
  Forall2 (Forall2 (fun xkj g' =>
             exists v, g' = Fin v /\
               derivable_pt_lim
                 (fun t => to_R (nth 0 (nth 0 (gaussian [[t]] beta) []) NaN))
                 xkj v))
    x (gaussian_derivative x beta).
Proof.
  intros Hb. unfold gaussian_derivative.
  apply Forall2_map_r. intros row. apply Forall2_map_r. intros xkj.
  exists (gaussian_derivative_spec xkj beta). split.
  - now apply gaussian_derivative1_Fin.
  - apply derivable_pt_lim_ext with (f := fun t => gaussian_spec t beta).
    + intros t. cbn [gaussian map nth]. now rewrite gaussian1_Fin.
    + now apply gaussian_spec_derivable.
Qed.

Lemma gaussian_derivative_correct_witness :
  0.5 <> 0 /\
  Forall2 (Forall2 (fun xkj g' =>
             exists v, g' = Fin v /\
               derivable_pt_lim
                 (fun t => to_R (nth 0 (nth 0 (gaussian [[t]] 0.5) []) NaN))
                 xkj v))
    [[0; 1]; [2; 3]] (gaussian_derivative [[0; 1]; [2; 3]] 0.5).
Proof.
  exact (conj half_nonzero
           (gaussian_derivative_correct [[0; 1]; [2; 3]] 0.5 half_nonzero)).
Defined.

(** X8: for [cutoff <> 0], [smooth_cutoff_derivative(d, cutoff)] returns,
    and every entry is finite and is the derivative, at the corresponding
    distance, of the value [smooth_cutoff] computes. *)
Theorem smooth_cutoff_derivative_correct (d : list R) (cutoff : R) :
  cutoff <> 0 ->
  exists D,
    smooth_cutoff_derivative d cutoff = Ok D /\
    Forall2 (fun dj Dj =>
               exists v, Dj = Fin v /\
                 derivable_pt_lim
                   (fun t => to_R (nth 0 (smooth_cutoff [t] cutoff) NaN)) dj v)
            d D.
Proof.
  intros Hc. eexists. split; [now apply smooth_cutoff_derivative_Ok|].
  apply Forall2_map_r. intros dj.
  exists (window_derivative_spec dj cutoff). split; [reflexivity|].
  apply derivable_pt_lim_ext with (f := fun t => window_spec t cutoff).
  - intros t. cbn [smooth_cutoff map nth]. now rewrite window_Fin.
  - now apply window_spec_derivable.
Qed.

Lemma smooth_cutoff_derivative_correct_witness :
  3 <> 0 /\
  exists D,
    smooth_cutoff_derivative [1; 2] 3 = Ok D /\
    Forall2 (fun dj Dj =>
               exists v, Dj = Fin v /\
                 derivable_pt_lim
                   (fun t => to_R (nth 0 (smooth_cutoff [t] 3) NaN)) dj v)
            [1; 2] D.
Proof.
  exact (conj three_nonzero
           (smooth_cutoff_derivative_correct [1; 2] 3 three_nonzero)).
Defined.

(** X9: for a positive [cutoff] and a distance [d] in [[0, cutoff]], the
    window [smooth_cutoff] computes is a finite value in [[0, 1]] that is 1
    at [d = 0] and 0 at [d = cutoff], [smooth_cutoff_derivative] computes a
    finite value [<= 0] that is 0 at [d = cutoff], and the window is strictly
    decreasing in [d]. *)
Theorem smooth_cutoff_profile (cutoff d : R) :
  0 < cutoff -> 0 <= d <= cutoff ->
  exists w w',
    smooth_cutoff [d] cutoff = [Fin w] /\
    smooth_cutoff_derivative [d] cutoff = Ok [Fin w'] /\
    0 <= w <= 1 /\ w' <= 0 /\
    (d = 0 -> w = 1) /\
    (d = cutoff -> w = 0 /\ w' = 0) /\
    (forall d2 w2, d < d2 <= cutoff ->
       smooth_cutoff [d2] cutoff = [Fin w2] -> w2 < w).
Proof.
  intros Hc [Hlo Hhi].
  assert (Hcz : cutoff <> 0) by lra.
  assert (Hu : 0 <= 1 - d / cutoff <= 1).
  { assert (0 <= d / cutoff <= 1).
    { split; [apply Rmult_le_pos; [lra|apply Rlt_le, Rinv_0_lt_compat; lra]|].
      apply Rmult_le_reg_r with cutoff; [lra|].
      unfold Rdiv. rewrite Rmult_assoc, Rinv_l by lra. lra. }
    lra. }
  exists (window_spec d cutoff), (window_derivative_spec d cutoff).
  split; [cbn [smooth_cutoff map]; now rewrite window_Fin|].
  split; [now rewrite smooth_cutoff_derivative_Ok|].
  unfold window_spec, window_derivative_spec.
  assert (Hinv : 0 < / cutoff) by (apply Rinv_0_lt_compat; lra).
  split; [nra|]. split; [unfold Rdiv at 1; nra|].
  split; [intros ->; unfold Rdiv; rewrite Rmult_0_l; ring|].
  split.
  - intros ->. unfold Rdiv. rewrite Rinv_r by lra. split; ring.
  - intros d2 w2 [Hlt Hle] Hw2.
    cbn [smooth_cutoff map] in Hw2. rewrite window_Fin in Hw2 by assumption.
    injection Hw2 as <-. unfold window_spec.
    assert (Hd2 : d / cutoff < d2 / cutoff)
      by (unfold Rdiv; apply Rmult_lt_compat_r; lra).
    assert (Hu2 : 0 <= 1 - d2 / cutoff).
    { assert (d2 / cutoff <= 1).
      { apply Rmult_le_reg_r with cutoff; [lra|].
        unfold Rdiv. rewrite Rmult_assoc, Rinv_l by lra. lra. }
      lra. }
    nra.
Qed.

Lemma smooth_cutoff_profile_witness :
  (0 < 3 /\ 0 <= 1 <= 3) /\
  exists w w',
    smooth_cutoff [1] 3 = [Fin w] /\
    smooth_cutoff_derivative [1] 3 = Ok [Fin w'] /\
    0 <= w <= 1 /\ w' <= 0 /\
    (1 = 0 -> w = 1) /\
    (1 = 3 -> w = 0 /\ w' = 0) /\
    (forall d2 w2, 1 < d2 <= 3 ->
       smooth_cutoff [d2] 3 = [Fin w2] -> w2 < w).
Proof.
  assert (H1 : 0 < 3) by lra.
  assert (H2 : 0 <= 1 <= 3) by lra.
  exact (conj (conj H1 H2) (smooth_cutoff_profile 3 1 H1 H2)).
Defined.

Lemma exp_le (a b : R) : a <= b -> exp a <= exp b.
Proof.
  intros [H | ->]; [left; now apply exp_increasing|right; reflexivity].
Qed.

(** X10: for [beta <> 0], every entry [gaussian] computes is a finite value
    in [[0, 1]] that is 1 where the argument is 0, the entries at [x] and at
    [-x] are equal, and the entry does not increase when the argument grows
    in absolute value. *)
Theorem gaussian_profile (x beta : R) :
  beta <> 0 ->
  exists g,
    gaussian [[x]] beta = [[Fin g]] /\
    gaussian [[- x]] beta = [[Fin g]] /\
    0 <= g <= 1 /\ (x = 0 -> g = 1) /\
    (forall x2 g2, Rabs x <= Rabs x2 ->
       gaussian [[x2]] beta = [[Fin g2]] -> g2 <= g).
Proof.
  intros Hb. exists (gaussian_spec x beta).
  split; [cbn [gaussian map]; now rewrite gaussian1_Fin|].
  split.
  { cbn [gaussian map]. rewrite gaussian1_Fin by assumption.
    unfold gaussian_spec. do 4 f_equal. field. assumption. }
  unfold gaussian_spec.
  assert (Hsq : 0 <= (x / beta) ^ 2) by apply pow2_ge_0.
  split; [split|split].
  - left. apply exp_pos.
  - rewrite <- exp_0. apply exp_le. lra.
  - intros ->. rewrite <- exp_0. f_equal. unfold Rdiv. rewrite Rmult_0_l.
    simpl. lra.
  - intros x2 g2 Habs Hg2. cbn [gaussian map] in Hg2.
    rewrite gaussian1_Fin in Hg2 by assumption. injection Hg2 as <-.
    unfold gaussian_spec. apply exp_le.
    assert (Hx : x ^ 2 <= x2 ^ 2).
    { apply Rsqr_le_abs_1 in Habs. unfold Rsqr in Habs. simpl. lra. }
    assert (Hinv : 0 <= (/ beta) ^ 2) by apply pow2_ge_0.
    unfold Rdiv. rewrite !Rpow_mult_distr. nra.
Qed.

Lemma gaussian_profile_witness :
  0.5 <> 0 /\
  exists g,
    gaussian [[1]] 0.5 = [[Fin g]] /\
    gaussian [[- 1]] 0.5 = [[Fin g]] /\
    0 <= g <= 1 /\ (1 = 0 -> g = 1) /\
    (forall x2 g2, Rabs 1 <= Rabs x2 ->
       gaussian [[x2]] 0.5 = [[Fin g2]] -> g2 <= g).
Proof.
  exact (conj half_nonzero (gaussian_profile 1 0.5 half_nonzero)).
Defined.

(** ** The extent of the radial grid *)

Lemma INR_to_nat (z : BinNums.Z) : (0 <= z)%Z -> INR (Z.to_nat z) = IZR z.
Proof. intros Hz. rewrite INR_IZR_INZ. now rewrite Z2Nat.id. Qed.

Lemma grid_points_count (cutoff alpha : R) :
  0 < cutoff -> 0 < alpha ->
  INR (length (grid_points cutoff alpha)) - 1 < cutoff / alpha
  <= INR (length (grid_points cutoff alpha)).
Proof.
  intros Hc Ha. rewrite grid_points_length.
  assert (Hq : 0 < cutoff / alpha) by now apply Rdiv_lt_0_compat.
  pose proof (Zceil_pos _ Hq) as Hpos.
  rewrite INR_to_nat by lia. apply Zceil_bound.
Qed.

(** X11: in exact arithmetic, for positive [cutoff] and [alpha] the grid
    [radial_grid] returns is exactly the sequence of the multiples
    [k * alpha], [k = 0, 1, 2, ...], that are [< cutoff]: its k-th point is
    [k * alpha], and [k] is an index of the grid exactly when
    [k * alpha < cutoff]; so a real number is a grid point exactly when it
    is such a multiple below [cutoff]. *)
Theorem radial_grid_range (cutoff alpha : R) :
  0 < cutoff -> 0 < alpha ->
  exists grid,
    radial_grid cutoff alpha = Ok grid /\
    (forall k : nat, (k < length grid)%nat -> nth k grid 0 = INR k * alpha) /\
    (forall k : nat, (k < length grid)%nat <-> INR k * alpha < cutoff) /\
    (forall x : R, In x grid <->
                   exists k : nat, x = INR k * alpha /\ x < cutoff).
Proof.
  intros Hc Ha. exists (grid_points cutoff alpha).
  destruct (grid_points_count cutoff alpha Hc Ha) as [Hlo Hhi].
  assert (Hidx : forall k : nat,
             (k < length (grid_points cutoff alpha))%nat
             <-> INR k * alpha < cutoff).
  { intros k. split.
    - intros Hk.
      assert (Hk' : INR k <= INR (length (grid_points cutoff alpha)) - 1).
      { replace 1 with (INR 1) by reflexivity. rewrite <- minus_INR by lia.
        apply le_INR. lia. }
      assert (Hlt : INR k < cutoff / alpha) by lra.
      apply Rmult_lt_compat_r with (r := alpha) in Hlt; [|assumption].
      unfold Rdiv in Hlt. rewrite Rmult_assoc, Rinv_l, Rmult_1_r in Hlt by lra.
      exact Hlt.
    - intros Hk. apply INR_lt.
      assert (Hlt : INR k < cutoff / alpha).
      { apply Rmult_lt_reg_r with alpha; [assumption|].
        unfold Rdiv. rewrite Rmult_assoc, Rinv_l, Rmult_1_r by lra. exact Hk. }
      lra. }
  split; [apply radial_grid_Ok; lra|].
  split; [apply grid_points_nth|]. split; [exact Hidx|].
  intros x. split.
  - intros Hx. destruct (In_nth _ _ 0 Hx) as [k [Hk <-]].
    exists k. rewrite grid_points_nth by assumption.
    split; [reflexivity|now apply Hidx].
  - intros [k [-> Hk]]. apply Hidx in Hk.
    rewrite <- (grid_points_nth cutoff alpha k Hk). now apply nth_In.
Qed.

Lemma radial_grid_range_witness :
  (0 < 3 /\ 0 < 0.5) /\
  exists grid,
    radial_grid 3 0.5 = Ok grid /\
    (forall k : nat, (k < length grid)%nat -> nth k grid 0 = INR k * 0.5) /\
    (forall k : nat, (k < length grid)%nat <-> INR k * 0.5 < 3) /\
    (forall x : R, In x grid <->
                   exists k : nat, x = INR k * 0.5 /\ x < 3).
Proof.
  assert (H1 : 0 < 3) by lra.
  exact (conj (conj H1 half_pos) (radial_grid_range 3 0.5 H1 half_pos)).
Defined.

(** ** The normalised Jacobian as a derivative *)

Lemma Rsum_derivable {A : Type} (F : A -> R -> R) (F' : A -> R) (l : list A)
  (t0 : R) :
  (forall a, derivable_pt_lim (F a) t0 (F' a)) ->
  derivable_pt_lim (fun t => Rsum (map (fun a => F a t) l)) t0
    (Rsum (map F' l)).
Proof.
  intros HF. unfold Rsum. induction l as [|a l IH]; cbn [map fold_right].
  - apply (derivable_pt_lim_const 0).
  - apply (derivable_pt_lim_plus (F a)
             (fun t => fold_right Rplus 0 (map (fun a0 => F a0 t) l)));
      [apply HF|exact IH].
Qed.

Lemma Rsum_scal {A : Type} (k : R) (f : A -> R) (l : list A) :
  Rsum (map (fun a => k * f a) l) = k * Rsum (map f l).
Proof.
  unfold Rsum. induction l as [|a l IH]; simpl; [ring|]. rewrite IH. ring.
Qed.

Lemma upd_coord_length (r : list (vec3 R)) (j : nat) (c : axis) (t : R) :
  length (upd_coord r j c t) = length r.
Proof.
  revert j. induction r as [|v r IH]; intros [|j]; simpl; try reflexivity.
  now rewrite IH.
Qed.

Lemma upd_coord_nonempty (r : list (vec3 R)) (j : nat) (c : axis) (t : R) :
  r <> [] -> upd_coord r j c t <> [].
Proof.
  intros Hne E. apply (f_equal (@length _)) in E.
  rewrite upd_coord_length in E. destruct r; [contradiction|discriminate].
Qed.

Section NormalizedDerivative.

Variables cutoff beta : R.
Hypothesis Hcutoff : cutoff <> 0.
Hypothesis Hbeta : beta <> 0.
Variable xs : list R.
Variable r : list (vec3 R).
Variable j : nat.
Variable c : axis.
Hypothesis Hj : (j < length r)%nat.
Hypothesis Hdist : 0 < norm3 (nth j r (mk3 0 0 0)).

(** The raw feature at [xi] and the norm over the grid [xs], as functions of
    the perturbed coordinate. *)
Let P (xi t : R) : R := raw_p (upd_coord r j c t) cutoff beta xi.
Let N (t : R) : R := sqrt (Rsum (map (fun xi => P xi t * P xi t) xs)).
Let t0 : R := coord c (nth j r (mk3 0 0 0)).
Let a (xi : R) : R := coord c (raw_q cutoff beta xi (nth j r (mk3 0 0 0))).

Lemma P_at_t0 (xi : R) : P xi t0 = raw_p r cutoff beta xi.
Proof. unfold P, t0. now rewrite upd_coord_same. Qed.

Lemma P_derivable (xi : R) : derivable_pt_lim (P xi) t0 (a xi).
Proof. unfold P, t0, a. now apply raw_p_derivable. Qed.

Lemma N_derivable :
  0 < N t0 ->
  derivable_pt_lim N t0
    (/ (2 * N t0) * (2 * Rsum (map (fun xi => P xi t0 * a xi) xs))).
Proof.
  intros Hpos.
  assert (Harg : 0 < Rsum (map (fun xi => P xi t0 * P xi t0) xs))
    by (apply sqrt_pos_arg; exact Hpos).
  apply (derivable_pt_lim_comp
           (fun t => Rsum (map (fun xi => P xi t * P xi t) xs)) sqrt).
  - rewrite <- Rsum_scal.
    apply (Rsum_derivable (fun xi t => P xi t * P xi t)
             (fun xi => 2 * (P xi t0 * a xi))).
    intros xi.
    replace (2 * (P xi t0 * a xi)) with (a xi * P xi t0 + P xi t0 * a xi) by ring.
    apply (derivable_pt_lim_mult (P xi) (P xi)); apply P_derivable.
  - now apply derivable_pt_lim_sqrt.
Qed.

Lemma unit_p_derivable (xk : R) :
  0 < N t0 ->
  derivable_pt_lim (fun t => P xk t / N t) t0
    (coord c (unit_q xs (raw_p r cutoff beta) (raw_q cutoff beta) (N t0) xk
                (nth j r (mk3 0 0 0)))).
Proof.
  intros Hpos. rewrite coord_unit_q. fold (a xk).
  assert (Hsum : Rsum (map (fun xi => raw_p r cutoff beta xi / N t0
                                      * (a xi / N t0)) xs)
                 = / (N t0 * N t0) * Rsum (map (fun xi => P xi t0 * a xi) xs)).
  { rewrite <- Rsum_scal. f_equal. apply map_ext. intros xi.
    rewrite <- P_at_t0. field. lra. }
  unfold a in Hsum at 1. rewrite Hsum. clear Hsum.
  rewrite <- (P_at_t0 xk).
  replace (a xk / N t0
           - P xk t0 / N t0
             * (/ (N t0 * N t0) * Rsum (map (fun xi => P xi t0 * a xi) xs)))
    with ((a xk * N t0
           - / (2 * N t0) * (2 * Rsum (map (fun xi => P xi t0 * a xi) xs))
             * P xk t0) / Rsqr (N t0))
    by (unfold Rsqr; field; lra).
  apply (derivable_pt_lim_div (P xk) N).
  - apply P_derivable.
  - now apply N_derivable.
  - lra.
Qed.

End NormalizedDerivative.

(** X12: with normalisation, for a non-empty neighbour set with all
    distances strictly between 0 and [cutoff], every entry [q[k, j, c]] of
    the returned Jacobian is the partial derivative of the normalised
    feature [p_k] with respect to coordinate [c] of [r_j]: what the module's
    finite-difference test checks numerically. *)
Theorem normalized_jacobian_is_partial_derivative
  (r : list (vec3 R)) (cutoff alpha beta : R) :
  r <> [] -> 0 < alpha -> beta <> 0 ->
  Forall (fun rj => 0 < norm3 rj < cutoff) r ->
  exists p q,
    rbf_descriptor r cutoff alpha beta true = Ok (p, q) /\
    length q = length p /\
    forall (k j : nat) (c : axis),
      (k < length p)%nat -> (j < length r)%nat ->
      exists dv,
        coord c (nth j (nth k q []) (mk3 NaN NaN NaN)) = Fin dv /\
        derivable_pt_lim
          (fun t => normalized_feature k cutoff alpha beta (upd_coord r j c t))
          (coord c (nth j r (mk3 0 0 0))) dv.
Proof.
  intros Hne Ha Hb Hr.
  assert (Hc : 0 < cutoff).
  { destruct r as [|rj r']; [contradiction|]. inversion Hr; subst. lra. }
  pose proof (raw_norm_pos r cutoff alpha beta Hne Hr Ha) as Hpos.
  set (xs := grid_points cutoff alpha) in *.
  set (nrm := sqrt (Rsum (map (fun xk => raw_p r cutoff beta xk
                                         * raw_p r cutoff beta xk) xs))) in *.
  do 2 eexists.
  split; [apply rbf_descriptor_normalized with (nrm := nrm);
          try assumption; reflexivity|].
  split; [now rewrite !length_map|].
  intros k j c Hk Hj. rewrite length_map in Hk.
  set (xk := nth k xs 0). set (rj := nth j r (mk3 0 0 0)).
  assert (Hrj : 0 < norm3 rj < cutoff).
  { rewrite Forall_forall in Hr. apply Hr. now apply nth_In. }
  exists (coord c (unit_q xs (raw_p r cutoff beta) (raw_q cutoff beta) nrm xk rj)).
  split.
  - rewrite nth_map_lt with (d' := 0) by assumption.
    rewrite nth_map_lt with (d' := mk3 0 0 0) by assumption.
    now rewrite coord_vmap.
  - destruct (range_open c rj cutoff Hrj) as [delta [Hdelta Hclose]].
    assert (Hnrm : nrm
                   = sqrt (Rsum (map (fun xi =>
                        raw_p (upd_coord r j c (coord c rj)) cutoff beta xi
                        * raw_p (upd_coord r j c (coord c rj)) cutoff beta xi) xs))).
    { unfold rj. now rewrite upd_coord_same. }
    rewrite Hnrm.
    apply derivable_pt_lim_locally_ext
      with (f := fun t =>
                   raw_p (upd_coord r j c t) cutoff beta xk
                   / sqrt (Rsum (map (fun xi =>
                        raw_p (upd_coord r j c t) cutoff beta xi
                        * raw_p (upd_coord r j c t) cutoff beta xi) xs)))
           (a := coord c rj - delta) (b := coord c rj + delta); [lra| |].
    + intros z Hz. unfold normalized_feature.
      assert (Hz_range : Forall (fun rj0 => 0 < norm3 rj0 < cutoff)
                           (upd_coord r j c z)).
      { apply upd_coord_Forall; [assumption|].
        apply Hclose. apply Rabs_def1; lra. }
      rewrite (rbf_descriptor_normalized (upd_coord r j c z) cutoff alpha beta _
                 (upd_coord_nonempty r j c z Hne) Ha Hb Hz_range eq_refl).
      now rewrite nth_map_lt with (d' := 0) by assumption.
    + apply (unit_p_derivable cutoff beta ltac:(lra) Hb xs r j c Hj);
        [apply Hrj|].
      rewrite upd_coord_same. exact Hpos.
Qed.

Lemma normalized_jacobian_is_partial_derivative_witness :
  Forall (fun rj => 0 < norm3 rj < 3) sample_r /\
  exists p q,
    rbf_descriptor sample_r 3 0.5 0.5 true = Ok (p, q) /\
    length q = length p /\
    forall (k j : nat) (c : axis),
      (k < length p)%nat -> (j < length sample_r)%nat ->
      exists dv,
        coord c (nth j (nth k q []) (mk3 NaN NaN NaN)) = Fin dv /\
        derivable_pt_lim
          (fun t => normalized_feature k 3 0.5 0.5 (upd_coord sample_r j c t))
          (coord c (nth j sample_r (mk3 0 0 0))) dv.
Proof.
  split; [exact sample_r_in_range|].
  exact (normalized_jacobian_is_partial_derivative sample_r 3 0.5 0.5
           sample_r_nonempty half_pos half_nonzero sample_r_in_range).
Defined.

(** ** The generated test configurations *)

Lemma In_firstn {A : Type} (n : nat) (l : list A) (x : A) :
  In x (firstn n l) -> In x l.
Proof.
  intros H. rewrite <- (firstn_skipn n l). apply in_or_app. now left.
Qed.

Lemma In_mask_select {A B : Type} (f : A -> B) (test : B -> bool)
  (l : list A) (y : B) :
  In y (mask_select (map f l) (map test (map f l))) ->
  test y = true /\ exists x, In x l /\ y = f x.
Proof.
  unfold mask_select. induction l as [|x l IH]; simpl; [contradiction|].
  destruct (test (f x)) eqn:Ht; simpl.
  - intros [<-|H].
    + split; [assumption|]. exists x. split; [now left|reflexivity].
    + destruct (IH H) as [Hy [x' [Hx' ->]]].
      split; [assumption|]. exists x'. split; [now right|reflexivity].
  - intros H. destruct (IH H) as [Hy [x' [Hx' ->]]].
    split; [assumption|]. exists x'. split; [now right|reflexivity].
Qed.

Lemma Rltb_true_inv (a b : R) : Rltb a b = true -> a < b.
Proof.
  unfold Rltb. destruct (Rlt_dec a b); [trivial|discriminate].
Qed.

Lemma generate_test_r_rows (rand : list (vec3 R)) (n : nat) (cutoff : R)
  (v : vec3 R) :
  In v (_generate_test_r rand n cutoff) ->
  0.1 * cutoff < norm3 v < cutoff /\
  exists u, In u rand /\ v = vmap (fun e => 2 * (e - 0.5) * cutoff) u.
Proof.
  unfold _generate_test_r. cbv zeta. intros H. apply In_firstn in H.
  set (scaled := map (vmap (fun e => 2 * (e - 0.5) * cutoff)) rand) in H.
  rewrite (map_map norm3 (fun dj => Rltb (0.1 * cutoff) dj && Rltb dj cutoff)
             scaled) in H.
  unfold scaled in H.
  apply (In_mask_select (vmap (fun e => 2 * (e - 0.5) * cutoff))
           (fun w => Rltb (0.1 * cutoff) (norm3 w) && Rltb (norm3 w) cutoff))
    in H.
  destruct H as [Ht Hex]. apply andb_true_iff in Ht. destruct Ht as [H1 H2].
  apply Rltb_true_inv in H1, H2. auto.
Qed.

(** X13: whatever array [rand] is drawn, [_generate_test_r] returns at most
    [n] rows, each of them a row of [2 * (rand - 0.5) * cutoff] whose norm
    is strictly between [0.1 * cutoff] and [cutoff]; for [cutoff <= 0] it
    returns no row. *)
Theorem generate_test_r_in_band (rand : list (vec3 R)) (n : nat) (cutoff : R) :
  (length (_generate_test_r rand n cutoff) <= n)%nat /\
  Forall (fun v =>
            0.1 * cutoff < norm3 v < cutoff /\
            exists u, In u rand /\ v = vmap (fun e => 2 * (e - 0.5) * cutoff) u)
         (_generate_test_r rand n cutoff) /\
  (cutoff <= 0 -> _generate_test_r rand n cutoff = []).
Proof.
  split; [|split].
  - unfold _generate_test_r. cbv zeta. rewrite length_firstn.
    apply Nat.le_min_l.
  - rewrite Forall_forall. intros v Hv.
    now apply (generate_test_r_rows rand n cutoff).
  - intros Hc. destruct (_generate_test_r rand n cutoff) as [|v l] eqn:E;
      [reflexivity|].
    assert (Hv : In v (_generate_test_r rand n cutoff))
      by (rewrite E; now left).
    apply generate_test_r_rows in Hv. destruct Hv as [[H1 H2] _]. lra.
Qed.

(** X14: the rows [_generate_test_r] returns meet the precondition of the
    kernel: for [cutoff > 0] every distance is strictly between 0 and
    [cutoff], and for [alpha <> 0] a call of [rbf_descriptor] on exactly
    these rows returns, with or without normalisation. *)
Theorem generate_test_r_accepted (rand : list (vec3 R)) (n : nat)
  (cutoff alpha beta : R) (normalized : bool) :
  0 < cutoff -> alpha <> 0 ->
  Forall (fun rj => 0 < norm3 rj < cutoff) (_generate_test_r rand n cutoff) /\
  exists pq,
    rbf_descriptor (_generate_test_r rand n cutoff) cutoff alpha beta normalized
    = Ok pq.
Proof.
  intros Hc Ha.
  assert (Hr : Forall (fun rj => 0 < norm3 rj < cutoff)
                 (_generate_test_r rand n cutoff)).
  { rewrite Forall_forall. intros v Hv.
    apply generate_test_r_rows in Hv. destruct Hv as [[H1 H2] _]. lra. }
  split; [exact Hr|].
  apply rbf_descriptor_returns; [lra|assumption|].
  revert Hr. apply Forall_impl. intros; lra.
Qed.

Lemma generate_test_r_accepted_witness :
  (0 < 3 /\ 0.5 <> 0) /\
  Forall (fun rj => 0 < norm3 rj < 3)
    (_generate_test_r [mk3 0.9 0.5 0.5; mk3 0.5 0.5 0.5] 1 3) /\
  exists pq,
    rbf_descriptor (_generate_test_r [mk3 0.9 0.5 0.5; mk3 0.5 0.5 0.5] 1 3)
      3 0.5 0.5 true
    = Ok pq.
Proof.
  assert (H1 : 0 < 3) by lra.
  exact (conj (conj H1 half_nonzero)
           (generate_test_r_accepted [mk3 0.9 0.5 0.5; mk3 0.5 0.5 0.5] 1
              3 0.5 0.5 true H1 half_nonzero)).
Defined.

(** ** The dataset driver *)

Lemma relative_vectors_Done (pos : list (vec3 R)) (cl : vec3 (vec3 R))
  (pi : vec3 R) (nbrs : list (nat * vec3 BinNums.Z)) :
  Forall (fun jo => (fst jo < length pos)%nat) nbrs ->
  relative_vectors pos cl pi nbrs
  = Done (map (fun jo => vmap2 Rplus
                           (vmap2 Rminus (nth (fst jo) pos (mk3 0 0 0)) pi)
                           (shift (snd jo) cl)) nbrs).
Proof.
  induction 1 as [|[j o] nbrs Hj _ IH]; cbn [relative_vectors map fst snd] in *;
    [reflexivity|].
  destruct (nth_error pos j) as [pj|] eqn:E.
  - rewrite IH. now rewrite (nth_error_nth _ _ _ E).
  - apply nth_error_None in E. lia.
Qed.

Lemma relative_vectors_Failed (pos : list (vec3 R)) (cl : vec3 (vec3 R))
  (pi : vec3 R) (nbrs : list (nat * vec3 BinNums.Z)) :
  Exists (fun jo => (length pos <= fst jo)%nat) nbrs ->
  relative_vectors pos cl pi nbrs = Failed IndexError.
Proof.
  induction nbrs as [|[j o] nbrs IH]; intros H; [inversion H|].
  cbn [relative_vectors].
  destruct (nth_error pos j) as [pj|] eqn:E; [|reflexivity].
  inversion H as [? ? Hj|? ? Hrest]; subst.
  - cbn [fst] in Hj. apply nth_error_None in Hj. congruence.
  - now rewrite IH.
Qed.

(** X15: the relative vectors of one atom are computed exactly when every
    neighbour index is a valid row of [positions]; they are then, row by
    row, [positions[j] - positions[i]] plus the combination of the cell rows
    with the integer offsets. An index beyond the array is an IndexError. *)
Theorem relative_vectors_outcome (pos : list (vec3 R)) (cl : vec3 (vec3 R))
  (pi : vec3 R) (nbrs : list (nat * vec3 BinNums.Z)) :
  match relative_vectors pos cl pi nbrs with
  | Done rij =>
      Forall (fun jo => (fst jo < length pos)%nat) nbrs /\
      rij = map (fun jo => vmap2 Rplus
                             (vmap2 Rminus (nth (fst jo) pos (mk3 0 0 0)) pi)
                             (shift (snd jo) cl)) nbrs
  | Failed e =>
      e = IndexError /\ Exists (fun jo => (length pos <= fst jo)%nat) nbrs
  end.
Proof.
  destruct (Forall_Exists_dec (fun jo : nat * vec3 BinNums.Z =>
                                 (fst jo < length pos)%nat)
              (fun jo => lt_dec (fst jo) (length pos)) nbrs) as [Hall|Hex].
  - rewrite relative_vectors_Done by assumption. now split.
  - assert (Hex' : Exists (fun jo : nat * vec3 BinNums.Z =>
                             (length pos <= fst jo)%nat) nbrs).
    { revert Hex. apply Exists_impl. intros jo Hjo. lia. }
    rewrite relative_vectors_Failed by assumption. now split.
Qed.

Section Loop.

Variable atoms : Atoms.
Variable nl : nat -> list (nat * vec3 BinNums.Z).
Variables cutoff alpha beta : R.

Let entry (i : nat) := descriptor_entry atoms cutoff alpha beta i (nl i).

Lemma descriptor_loop_Done (ids : list nat) data :
  descriptor_loop atoms nl cutoff alpha beta ids = Done data <->
  Forall2 (fun i x => entry i = Done x) ids data.
Proof.
  revert data. induction ids as [|i ids IH]; intros data; cbn [descriptor_loop].
  - split.
    + intros H. injection H as <-. constructor.
    + intros H. inversion H. reflexivity.
  - fold (entry i). split.
    + destruct (entry i) as [x|e] eqn:Hx; [|discriminate].
      destruct (descriptor_loop atoms nl cutoff alpha beta ids) as [xs|e];
        [|discriminate].
      intros H. injection H as <-. constructor; [exact Hx|now apply IH].
    + intros H. inversion H as [|? x ? xs Hx Hxs]; subst.
      rewrite Hx. apply IH in Hxs. now rewrite Hxs.
Qed.

Lemma descriptor_loop_Failed (ids : list nat) (e : driver_exn) :
  descriptor_loop atoms nl cutoff alpha beta ids = Failed e ->
  exists pre i post,
    ids = pre ++ i :: post /\ entry i = Failed e /\
    Forall (fun i' => exists x, entry i' = Done x) pre.
Proof.
  induction ids as [|i ids IH]; cbn [descriptor_loop]; [discriminate|].
  fold (entry i). destruct (entry i) as [x|e'] eqn:Hi.
  - destruct (descriptor_loop atoms nl cutoff alpha beta ids) as [xs|e''];
      [discriminate|].
    intros H. injection H as ->.
    destruct (IH eq_refl) as (pre & i' & post & -> & Hi' & Hpre).
    exists (i :: pre), i', post. split; [reflexivity|]. split; [assumption|].
    constructor; [now exists x|assumption].
  - intros H. injection H as ->. exists [], i, ids.
    split; [reflexivity|]. split; [assumption|constructor].
Qed.

End Loop.

(** X16: [get_descriptor_data] returns exactly when the loop body succeeds
    for every atom, and then holds one entry per atom, in atom order, each
    the result of the loop body for that atom; otherwise it fails with the
    error of the first atom whose body fails, all earlier atoms having
    succeeded (nothing is skipped and no partial result is returned). *)
Theorem get_descriptor_data_outcome
  (get_neighbor_list : Atoms -> R -> nat -> list (nat * vec3 BinNums.Z))
  (atoms : Atoms) (cutoff alpha beta : R) :
  let nl := get_neighbor_list atoms cutoff in
  match get_descriptor_data get_neighbor_list atoms cutoff alpha beta with
  | Done data =>
      Forall2 (fun i x => descriptor_entry atoms cutoff alpha beta i (nl i)
                          = Done x)
              (seq 0 (length (positions atoms))) data
  | Failed e =>
      exists i, (i < length (positions atoms))%nat /\
        descriptor_entry atoms cutoff alpha beta i (nl i) = Failed e /\
        forall i', (i' < i)%nat ->
          exists x, descriptor_entry atoms cutoff alpha beta i' (nl i') = Done x
  end.
Proof.
  intros nl. unfold get_descriptor_data. fold nl.
  destruct (descriptor_loop atoms nl cutoff alpha beta
              (seq 0 (length (positions atoms)))) as [data|e] eqn:E.
  - now apply descriptor_loop_Done.
  - apply descriptor_loop_Failed in E.
    destruct E as (pre & i & post & Hids & Hi & Hpre).
    assert (Hlen : length pre = i).
    { pose proof (f_equal (fun l => nth (length pre) l O) Hids) as Hn.
      cbn beta in Hn. rewrite nth_middle in Hn.
      rewrite seq_nth in Hn; [lia|].
      apply (f_equal (@length nat)) in Hids.
      rewrite length_seq, length_app in Hids. simpl in Hids. lia. }
    assert (HN : (i < length (positions atoms))%nat).
    { apply (f_equal (@length nat)) in Hids.
      rewrite length_seq, length_app in Hids. simpl in Hids. lia. }
    exists i. split; [exact HN|]. split; [exact Hi|].
    intros i' Hi'. rewrite Forall_forall in Hpre. apply Hpre.
    pose proof (f_equal (fun l => nth i' l O) Hids) as Hn. cbn beta in Hn.
    rewrite seq_nth in Hn by lia. rewrite app_nth1 in Hn by lia.
    simpl in Hn. rewrite Hn. apply nth_In. lia.
Qed.

Lemma relative_vectors_translate (t : vec3 R) (pos : list (vec3 R))
  (cl : vec3 (vec3 R)) (pi : vec3 R) (nbrs : list (nat * vec3 BinNums.Z)) :
  relative_vectors (map (vmap2 Rplus t) pos) cl (vmap2 Rplus t pi) nbrs
  = relative_vectors pos cl pi nbrs.
Proof.
  induction nbrs as [|[j o] nbrs IH]; cbn [relative_vectors]; [reflexivity|].
  rewrite nth_error_map, IH.
  destruct (nth_error pos j) as [pj|]; cbn [option_map]; [|reflexivity].
  destruct (relative_vectors pos cl pi nbrs) as [rs|e]; [|reflexivity].
  do 2 f_equal. unfold vmap2; cbn [vx vy vz]. f_equal; ring.
Qed.

Lemma descriptor_loop_translate (t : vec3 R) (atoms : Atoms)
  (nl nl' : nat -> list (nat * vec3 BinNums.Z)) (cutoff alpha beta : R)
  (ids : list nat) :
  (forall i, nl' i = nl i) ->
  Forall (fun i => (i < length (positions atoms))%nat) ids ->
  descriptor_loop (mkAtoms (map (vmap2 Rplus t) (positions atoms)) (cell atoms))
    nl' cutoff alpha beta ids
  = descriptor_loop atoms nl cutoff alpha beta ids.
Proof.
  intros Hnl. induction 1 as [|i ids Hi _ IH]; cbn [descriptor_loop];
    [reflexivity|].
  rewrite IH, Hnl. unfold descriptor_entry. cbn [positions cell].
  rewrite nth_map_lt with (d' := mk3 0 0 0) by assumption.
  now rewrite relative_vectors_translate.
Qed.

(** X17: translating every atom by the same vector changes nothing in the
    result of [get_descriptor_data], success or error, as long as the
    neighbour list builder gives the same neighbours and offsets for the
    translated structure: only differences of positions are used. *)
Theorem get_descriptor_data_translation
  (get_neighbor_list : Atoms -> R -> nat -> list (nat * vec3 BinNums.Z))
  (atoms : Atoms) (t : vec3 R) (cutoff alpha beta : R) :
  let atoms' := mkAtoms (map (vmap2 Rplus t) (positions atoms)) (cell atoms) in
  (forall i, get_neighbor_list atoms' cutoff i
             = get_neighbor_list atoms cutoff i) ->
  get_descriptor_data get_neighbor_list atoms' cutoff alpha beta
  = get_descriptor_data get_neighbor_list atoms cutoff alpha beta.
Proof.
  intros atoms' Hnl. unfold get_descriptor_data, atoms'. cbn [positions].
  rewrite length_map. apply descriptor_loop_translate; [exact Hnl|].
  rewrite Forall_forall. intros i Hi. apply in_seq in Hi. lia.
Qed.

Lemma get_descriptor_data_translation_witness :
  let atoms' := mkAtoms (map (vmap2 Rplus (mk3 1 2 3)) (positions sample_atoms))
                        (cell sample_atoms) in
  (forall i, sample_neighbor_list atoms' 3 i
             = sample_neighbor_list sample_atoms 3 i) /\
  get_descriptor_data sample_neighbor_list atoms' 3 0.5 0.5
  = get_descriptor_data sample_neighbor_list sample_atoms 3 0.5 0.5.
Proof.
  intros atoms'.
  assert (H : forall i, sample_neighbor_list atoms' 3 i
                        = sample_neighbor_list sample_atoms 3 i)
    by (intros i; reflexivity).
  exact (conj H (get_descriptor_data_translation sample_neighbor_list
                   sample_atoms (mk3 1 2 3) 3 0.5 0.5 H)).
Defined.

Lemma unit_norm_result (r : list (vec3 R)) (cutoff alpha beta : R) :
  r <> [] -> 0 < alpha -> beta <> 0 ->
  Forall (fun rj => 0 < norm3 rj < cutoff) r ->
  exists p q,
    rbf_descriptor r cutoff alpha beta true = Ok (p, q) /\ xnorm p = Fin 1.
Proof.
  intros Hne Ha Hb Hr.
  pose proof (raw_norm_pos r cutoff alpha beta Hne Hr Ha) as Hpos.
  remember (sqrt _) as nrm eqn:Hn in Hpos.
  do 2 eexists. split.
  - apply rbf_descriptor_normalized with (nrm := nrm); assumption.
  - rewrite xnorm_Fin. f_equal.
    rewrite (unit_norm_sum (raw_p r cutoff beta) _ nrm Hn) by lra.
    apply sqrt_1.
Qed.

Lemma Forall2_exists {A B : Type} (P : A -> B -> Prop) (l : list A) :
  (forall a, In a l -> exists b, P a b) -> exists l', Forall2 P l l'.
Proof.
  induction l as [|a l IH]; intros H.
  - exists []. constructor.
  - destruct (H a (or_introl eq_refl)) as [b Hb].
    destruct IH as [l' Hl']; [intros a' Ha'; apply H; now right|].
    exists (b :: l'). now constructor.
Qed.

(** X18: if the neighbour list honours its contract (every atom has at
    least one neighbour, every neighbour index is a valid atom, and every
    relative vector has a length strictly between 0 and [cutoff]), then for
    [alpha > 0] and [beta <> 0] [get_descriptor_data] returns one entry
    per atom, in atom order, holding that atom's neighbour indices and a
    descriptor of Euclidean norm exactly 1. *)
Theorem get_descriptor_data_valid_neighbors
  (get_neighbor_list : Atoms -> R -> nat -> list (nat * vec3 BinNums.Z))
  (atoms : Atoms) (cutoff alpha beta : R) :
  let nl := get_neighbor_list atoms cutoff in
  let pos := positions atoms in
  0 < alpha -> beta <> 0 ->
  (forall i, (i < length pos)%nat ->
     nl i <> [] /\
     Forall (fun jo =>
               (fst jo < length pos)%nat /\
               0 < norm3 (vmap2 Rplus
                            (vmap2 Rminus (nth (fst jo) pos (mk3 0 0 0))
                                          (nth i pos (mk3 0 0 0)))
                            (shift (snd jo) (cell atoms))) < cutoff)
            (nl i)) ->
  exists data,
    get_descriptor_data get_neighbor_list atoms cutoff alpha beta = Done data /\
    Forall2 (fun i x =>
               fst (fst x) = map fst (nl i) /\ xnorm (snd (fst x)) = Fin 1)
            (seq 0 (length pos)) data.
Proof.
  intros nl pos Ha Hb Hcontract.
  assert (Hentries : exists data,
             Forall2 (fun i x =>
                        descriptor_entry atoms cutoff alpha beta i (nl i) = Done x
                        /\ fst (fst x) = map fst (nl i)
                        /\ xnorm (snd (fst x)) = Fin 1)
                     (seq 0 (length pos)) data).
  { apply Forall2_exists. intros i Hi. apply in_seq in Hi.
    destruct (Hcontract i ltac:(lia)) as [Hne Hall].
    unfold descriptor_entry. fold pos.
    rewrite relative_vectors_Done
      by (revert Hall; apply Forall_impl; intros jo [H _]; exact H).
    set (rij := map _ (nl i)).
    assert (Hrij : Forall (fun rj => 0 < norm3 rj < cutoff) rij).
    { unfold rij. rewrite Forall_map. revert Hall. apply Forall_impl.
      intros jo [_ H]. exact H. }
    assert (Hrne : rij <> []).
    { unfold rij. intros E. apply map_eq_nil in E. contradiction. }
    destruct (unit_norm_result rij cutoff alpha beta Hrne Ha Hb Hrij)
      as (p & q & Hpq & Hnorm).
    rewrite Hpq. exists (map fst (nl i), p, q). auto. }
  destruct Hentries as [data Hdata]. exists data. split.
  - unfold get_descriptor_data. fold nl pos. apply descriptor_loop_Done.
    revert Hdata. apply Forall2_impl. intros i x [H _]. exact H.
  - revert Hdata. apply Forall2_impl. intros i x [_ H]. exact H.
Qed.

Lemma sample_neighbor_contract :
  forall i, (i < length (positions sample_atoms))%nat ->
    sample_neighbor_list sample_atoms 3 i <> [] /\
    Forall (fun jo =>
              (fst jo < length (positions sample_atoms))%nat /\
              0 < norm3 (vmap2 Rplus
                           (vmap2 Rminus
                              (nth (fst jo) (positions sample_atoms) (mk3 0 0 0))
                              (nth i (positions sample_atoms) (mk3 0 0 0)))
                           (shift (snd jo) (cell sample_atoms))) < 3)
           (sample_neighbor_list sample_atoms 3 i).
Proof.
  intros i Hi. simpl in Hi.
  destruct i as [|[|i]]; [| |lia]; (split; [discriminate|]);
    (constructor; [|constructor]); (split; [simpl; lia|]);
    cbv [norm3 vmap2 vmap shift vx vy vz fst snd nth positions cell
         sample_atoms sample_neighbor_list].
  - match goal with |- 0 < sqrt ?e < 3 => replace e with 1 by ring end.
    rewrite sqrt_1. lra.
  - match goal with |- 0 < sqrt ?e < 3 => replace e with 1 by ring end.
    rewrite sqrt_1. lra.
Qed.

Lemma get_descriptor_data_valid_neighbors_witness :
  (0 < 0.5 /\ 0.5 <> 0) /\
  exists data,
    get_descriptor_data sample_neighbor_list sample_atoms 3 0.5 0.5 = Done data /\
    Forall2 (fun i x =>
               fst (fst x) = map fst (sample_neighbor_list sample_atoms 3 i) /\
               xnorm (snd (fst x)) = Fin 1)
            (seq 0 (length (positions sample_atoms))) data.
Proof.
  exact (conj (conj half_pos half_nonzero)
           (get_descriptor_data_valid_neighbors sample_neighbor_list sample_atoms
              3 0.5 0.5 half_pos half_nonzero sample_neighbor_contract)).
Defined.

(** ** The range of the normalised descriptor *)

Lemma Rsum_ge_term {A : Type} (f : A -> R) (l : list A) (x : A) :
  (forall a, 0 <= f a) -> In x l -> f x <= Rsum (map f l).
Proof.
  intros Hf. unfold Rsum. induction l as [|a l IH]; simpl; [contradiction|].
  intros [->|H].
  - assert (0 <= fold_right Rplus 0 (map f l)).
    { clear IH. induction l as [|b l IHl]; simpl; [lra|].
      pose proof (Hf b). lra. }
    lra.
  - pose proof (Hf a). pose proof (IH H). lra.
Qed.

(** X19: in exact arithmetic, with normalisation, for a non-empty
    neighbour set with all distances strictly between 0 and [cutoff], every
    entry of the returned descriptor is a finite value in [[0, 1]]: no
    entry is negative and none exceeds the norm. *)
Theorem normalized_entries_in_unit_interval
  (r : list (vec3 R)) (cutoff alpha beta : R) :
  r <> [] -> 0 < alpha -> beta <> 0 ->
  Forall (fun rj => 0 < norm3 rj < cutoff) r ->
  exists p q,
    rbf_descriptor r cutoff alpha beta true = Ok (p, q) /\
    Forall (fun pk => exists v, pk = Fin v /\ 0 <= v <= 1) p.
Proof.
  intros Hne Ha Hb Hr.
  pose proof (raw_norm_pos r cutoff alpha beta Hne Hr Ha) as Hpos.
  set (xs := grid_points cutoff alpha) in *.
  set (nrm := sqrt (Rsum (map (fun xk => raw_p r cutoff beta xk
                                         * raw_p r cutoff beta xk) xs))) in *.
  do 2 eexists. split.
  - apply rbf_descriptor_normalized with (nrm := nrm);
      try assumption; reflexivity.
  - rewrite Forall_map, Forall_forall. intros xk Hxk.
    eexists. split; [reflexivity|].
    pose proof (raw_p_nonneg r cutoff beta xk) as Hp.
    assert (Hle : raw_p r cutoff beta xk <= nrm).
    { rewrite <- (sqrt_square (raw_p r cutoff beta xk)) at 1 by lra.
      unfold nrm. apply sqrt_le_1_alt.
      apply (Rsum_ge_term (fun x => raw_p r cutoff beta x * raw_p r cutoff beta x));
        [|exact Hxk].
      intros x. pose proof (Rle_0_sqr (raw_p r cutoff beta x)) as H.
      exact H. }
    assert (Hinv : 0 < / nrm) by now apply Rinv_0_lt_compat.
    split.
    + unfold Rdiv. nra.
    + apply Rmult_le_reg_r with nrm; [exact Hpos|].
      unfold Rdiv. rewrite Rmult_assoc, Rinv_l by lra. lra.
Qed.

Lemma normalized_entries_in_unit_interval_witness :
  Forall (fun rj => 0 < norm3 rj < 3) sample_r /\
  exists p q,
    rbf_descriptor sample_r 3 0.5 0.5 true = Ok (p, q) /\
    Forall (fun pk => exists v, pk = Fin v /\ 0 <= v <= 1) p.
Proof.
  split; [exact sample_r_in_range|].
  exact (normalized_entries_in_unit_interval sample_r 3 0.5 0.5
           sample_r_nonempty half_pos half_nonzero sample_r_in_range).
Defined.

(** ** The Jacobian under rotations *)

Lemma raw_p_mat_vec (M : vec3 (vec3 R)) (r : list (vec3 R))
  (cutoff beta xk : R) :
  orthogonal M ->
  raw_p (map (mat_vec M) r) cutoff beta xk = raw_p r cutoff beta xk.
Proof.
  intros HM. unfold raw_p. rewrite map_map. f_equal. apply map_ext.
  intros rj. now rewrite norm3_mat_vec.
Qed.

Lemma raw_q_mat_vec (M : vec3 (vec3 R)) (cutoff beta xk : R) (v : vec3 R) :
  orthogonal M ->
  raw_q cutoff beta xk (mat_vec M v) = mat_vec M (raw_q cutoff beta xk v).
Proof.
  intros HM. unfold raw_q. cbv zeta. rewrite norm3_mat_vec by assumption.
  set (K := - gaussian_derivative_spec (xk - norm3 v) beta
            * window_spec (norm3 v) cutoff).
  set (L := gaussian_spec (xk - norm3 v) beta
            * window_derivative_spec (norm3 v) cutoff).
  set (d := norm3 v).
  destruct M as [[a1 b1 c1] [a2 b2 c2] [a3 b3 c3]], v as [x y z].
  unfold mat_vec, dot3, vmap; cbn [vx vy vz]. unfold Rdiv.
  f_equal; ring.
Qed.

Lemma dot3_col_sum (u : vec3 R) (xs : list R) (F : R -> vec3 R) :
  dot3 u (col_sum xs F) = Rsum (map (fun x => dot3 u (F x)) xs).
Proof.
  unfold col_sum, dot3, Rsum; cbn [vx vy vz].
  induction xs as [|x xs IH]; simpl; [ring|]. rewrite <- IH. ring.
Qed.

Lemma mat_vec_col_sum (M : vec3 (vec3 R)) (xs : list R) (F : R -> vec3 R) :
  mat_vec M (col_sum xs F) = col_sum xs (fun x => mat_vec M (F x)).
Proof.
  unfold mat_vec at 1. rewrite !dot3_col_sum. reflexivity.
Qed.

Lemma mat_vec_scale (M : vec3 (vec3 R)) (k : R) (u : vec3 R) :
  mat_vec M (vmap (Rmult k) u) = vmap (Rmult k) (mat_vec M u).
Proof.
  unfold mat_vec, dot3, vmap; cbn [vx vy vz]. f_equal; ring.
Qed.

Lemma mat_vec_div (M : vec3 (vec3 R)) (n : R) (u : vec3 R) :
  mat_vec M (vmap (fun e => e / n) u) = vmap (fun e => e / n) (mat_vec M u).
Proof.
  unfold mat_vec, dot3, vmap, Rdiv; cbn [vx vy vz]. f_equal; ring.
Qed.

Lemma mat_vec_minus (M : vec3 (vec3 R)) (u w : vec3 R) :
  mat_vec M (vmap2 Rminus u w) = vmap2 Rminus (mat_vec M u) (mat_vec M w).
Proof.
  unfold mat_vec, dot3, vmap2; cbn [vx vy vz]. f_equal; ring.
Qed.

Lemma col_sum_ext (xs : list R) (F G : R -> vec3 R) :
  (forall x, F x = G x) -> col_sum xs F = col_sum xs G.
Proof.
  intros H. unfold col_sum.
  f_equal; f_equal; apply map_ext; intros x; now rewrite H.
Qed.

Lemma unit_q_ext (xs : list R) (P P' : R -> R) (Q : R -> vec3 R -> vec3 R)
  (nrm xk : R) (v : vec3 R) :
  (forall x, P x = P' x) ->
  unit_q xs P Q nrm xk v = unit_q xs P' Q nrm xk v.
Proof.
  intros H. unfold unit_q. rewrite H.
  do 2 f_equal. apply col_sum_ext. intros x. now rewrite H.
Qed.

Lemma unit_q_mat_vec (M : vec3 (vec3 R)) (xs : list R) (P : R -> R)
  (Q : R -> vec3 R -> vec3 R) (nrm xk : R) (v : vec3 R) :
  (forall xi, Q xi (mat_vec M v) = mat_vec M (Q xi v)) ->
  unit_q xs P Q nrm xk (mat_vec M v) = mat_vec M (unit_q xs P Q nrm xk v).
Proof.
  intros HQ. unfold unit_q.
  rewrite mat_vec_minus, mat_vec_div, mat_vec_scale, mat_vec_col_sum, HQ.
  do 2 f_equal. apply col_sum_ext. intros xi.
  now rewrite HQ, mat_vec_scale, mat_vec_div.
Qed.

(** X20: the Jacobian turns with the neighbours: for an orthogonal matrix
    applied to every relative vector of a non-empty neighbour set in range,
    the returned descriptor is the same and every Jacobian row
    [q[k, j, :]] is the original row multiplied by the matrix, with or
    without normalisation. *)
Theorem jacobian_rotation_equivariant (M : vec3 (vec3 R)) (r : list (vec3 R))
  (cutoff alpha beta : R) (normalized : bool) :
  orthogonal M -> r <> [] -> 0 < alpha -> beta <> 0 ->
  Forall (fun rj => 0 < norm3 rj < cutoff) r ->
  exists p Q,
    rbf_descriptor r cutoff alpha beta normalized
    = Ok (p, map (map (vmap Fin)) Q) /\
    rbf_descriptor (map (mat_vec M) r) cutoff alpha beta normalized
    = Ok (p, map (map (fun v => vmap Fin (mat_vec M v))) Q).
Proof.
  intros HM Hne Ha Hb Hr.
  assert (Hc : 0 < cutoff).
  { destruct r as [|rj r']; [contradiction|]. inversion Hr; subst. lra. }
  assert (Hr' : Forall (fun rj => 0 < norm3 rj < cutoff) (map (mat_vec M) r)).
  { rewrite Forall_map. revert Hr. apply Forall_impl.
    intros rj H. now rewrite norm3_mat_vec. }
  assert (Hne' : map (mat_vec M) r <> []).
  { intros E. apply map_eq_nil in E. contradiction. }
  set (xs := grid_points cutoff alpha).
  destruct normalized.
  - set (nrm := sqrt (Rsum (map (fun xk => raw_p r cutoff beta xk
                                           * raw_p r cutoff beta xk) xs))).
    exists (map (fun xk => Fin (raw_p r cutoff beta xk / nrm)) xs),
           (map (fun xk => map (unit_q xs (raw_p r cutoff beta)
                                  (raw_q cutoff beta) nrm xk) r) xs).
    split.
    + rewrite (rbf_descriptor_normalized r cutoff alpha beta nrm Hne Ha Hb Hr
                 eq_refl).
      f_equal. f_equal. rewrite map_map. apply map_ext. intros xk.
      now rewrite map_map.
    + assert (Hn : nrm = sqrt (Rsum (map (fun xk =>
                       raw_p (map (mat_vec M) r) cutoff beta xk
                       * raw_p (map (mat_vec M) r) cutoff beta xk) xs))).
      { unfold nrm. do 2 f_equal. apply map_ext. intros xk.
        now rewrite raw_p_mat_vec. }
      rewrite (rbf_descriptor_normalized _ cutoff alpha beta nrm Hne' Ha Hb Hr'
                 Hn).
      f_equal. f_equal.
      * apply map_ext. intros xk. now rewrite raw_p_mat_vec.
      * rewrite map_map. apply map_ext. intros xk. rewrite !map_map.
        apply map_ext. intros rj. f_equal.
        rewrite (unit_q_ext xs _ (raw_p r cutoff beta))
          by (intros x; now apply raw_p_mat_vec).
        apply unit_q_mat_vec. intros xi. now apply raw_q_mat_vec.
  - exists (map (fun xk => Fin (raw_p r cutoff beta xk)) xs),
           (map (fun xk => map (raw_q cutoff beta xk) r) xs).
    split.
    + rewrite rbf_descriptor_raw by (try assumption; lra).
      f_equal. f_equal. rewrite map_map. apply map_ext. intros xk.
      now rewrite map_map.
    + rewrite rbf_descriptor_raw by (try assumption; lra).
      f_equal. f_equal.
      * apply map_ext. intros xk. now rewrite raw_p_mat_vec.
      * rewrite map_map. apply map_ext. intros xk. rewrite !map_map.
        apply map_ext. intros rj. f_equal. now apply raw_q_mat_vec.
Qed.

Lemma jacobian_rotation_equivariant_witness :
  (orthogonal quarter_turn /\ Forall (fun rj => 0 < norm3 rj < 3) sample_r) /\
  exists p Q,
    rbf_descriptor sample_r 3 0.5 0.5 true = Ok (p, map (map (vmap Fin)) Q) /\
    rbf_descriptor (map (mat_vec quarter_turn) sample_r) 3 0.5 0.5 true
    = Ok (p, map (map (fun v => vmap Fin (mat_vec quarter_turn v))) Q).
Proof.
  split; [split; [exact quarter_turn_orthogonal|exact sample_r_in_range]|].
  exact (jacobian_rotation_equivariant quarter_turn sample_r 3 0.5 0.5 true
           quarter_turn_orthogonal sample_r_nonempty half_pos half_nonzero
           sample_r_in_range).
Defined.

(** ** Change of the unit of length *)

Lemma vec3_ext {A : Type} (u v : vec3 A) :
  (forall c, coord c u = coord c v) -> u = v.
Proof.
  intros H. destruct u as [a b c], v as [a' b' c'].
  pose proof (H X) as Hx. pose proof (H Y) as Hy. pose proof (H Z) as Hz.
  cbn in Hx, Hy, Hz. now subst.
Qed.

Section Scaling.

Variable s : R.
Hypothesis s_pos : 0 < s.
Variables cutoff alpha beta : R.
Hypothesis alpha_nonzero : alpha <> 0.
Hypothesis beta_nonzero : beta <> 0.
Hypothesis cutoff_nonzero : cutoff <> 0.

Lemma norm3_scale (v : vec3 R) : norm3 (vmap (Rmult s) v) = s * norm3 v.
Proof.
  unfold norm3, vmap; cbn [vx vy vz].
  replace ((s * vx v) ^ 2 + (s * vy v) ^ 2 + (s * vz v) ^ 2)
    with (s * s * (vx v ^ 2 + vy v ^ 2 + vz v ^ 2)) by ring.
  rewrite sqrt_mult_alt by nra. now rewrite sqrt_square by lra.
Qed.

Lemma grid_points_scale :
  grid_points (s * cutoff) (s * alpha) = map (Rmult s) (grid_points cutoff alpha).
Proof.
  unfold grid_points.
  replace ((s * cutoff - 0) / (s * alpha)) with ((cutoff - 0) / alpha)
    by (field; split; lra).
  rewrite map_map. apply map_ext. intros k. ring.
Qed.

Lemma gaussian_spec_scale (x : R) :
  gaussian_spec (s * x) (s * beta) = gaussian_spec x beta.
Proof.
  unfold gaussian_spec. do 3 f_equal. field. split; lra.
Qed.

Lemma window_spec_scale (d : R) :
  window_spec (s * d) (s * cutoff) = window_spec d cutoff.
Proof.
  unfold window_spec. do 2 f_equal. field. split; lra.
Qed.

Lemma gaussian_derivative_spec_scale (x : R) :
  gaussian_derivative_spec (s * x) (s * beta)
  = gaussian_derivative_spec x beta / s.
Proof.
  unfold gaussian_derivative_spec. rewrite gaussian_spec_scale.
  field. split; lra.
Qed.

Lemma window_derivative_spec_scale (d : R) :
  window_derivative_spec (s * d) (s * cutoff)
  = window_derivative_spec d cutoff / s.
Proof.
  unfold window_derivative_spec. field. split; lra.
Qed.

Lemma raw_p_scale (r : list (vec3 R)) (xk : R) :
  raw_p (map (vmap (Rmult s)) r) (s * cutoff) (s * beta) (s * xk)
  = raw_p r cutoff beta xk.
Proof.
  unfold raw_p. rewrite map_map. f_equal. apply map_ext. intros rj.
  rewrite norm3_scale, window_spec_scale.
  replace (s * xk - s * norm3 rj) with (s * (xk - norm3 rj)) by ring.
  now rewrite gaussian_spec_scale.
Qed.

Lemma raw_q_scale (xk : R) (v : vec3 R) :
  norm3 v <> 0 ->
  raw_q (s * cutoff) (s * beta) (s * xk) (vmap (Rmult s) v)
  = vmap (fun e => e / s) (raw_q cutoff beta xk v).
Proof.
  intros Hd. unfold raw_q. cbv zeta.
  rewrite norm3_scale, window_spec_scale, window_derivative_spec_scale.
  replace (s * xk - s * norm3 v) with (s * (xk - norm3 v)) by ring.
  rewrite gaussian_spec_scale, gaussian_derivative_spec_scale.
  unfold vmap; cbn [vx vy vz]. f_equal; field; split; lra.
Qed.

Lemma unit_q_scale (xs : list R) (r : list (vec3 R)) (nrm xk : R)
  (v : vec3 R) :
  norm3 v <> 0 ->
  unit_q (map (Rmult s) xs)
    (raw_p (map (vmap (Rmult s)) r) (s * cutoff) (s * beta))
    (raw_q (s * cutoff) (s * beta)) nrm (s * xk) (vmap (Rmult s) v)
  = vmap (fun e => e / s)
      (unit_q xs (raw_p r cutoff beta) (raw_q cutoff beta) nrm xk v).
Proof.
  intros Hd. apply vec3_ext. intros c.
  rewrite coord_vmap, !coord_unit_q, map_map.
  rewrite raw_p_scale, raw_q_scale, coord_vmap by assumption.
  rewrite (map_ext
             (fun x => raw_p (map (vmap (Rmult s)) r) (s * cutoff) (s * beta) (s * x)
                       / nrm
                       * (coord c (raw_q (s * cutoff) (s * beta) (s * x)
                                     (vmap (Rmult s) v)) / nrm))
             (fun x => / s * (raw_p r cutoff beta x / nrm
                              * (coord c (raw_q cutoff beta x v) / nrm)))).
  2:{ intros x. rewrite raw_p_scale, raw_q_scale, coord_vmap by assumption.
      unfold Rdiv. ring. }
  rewrite Rsum_scal. unfold Rdiv. ring.
Qed.

End Scaling.

(** X21: the descriptor does not depend on the unit of length: scaling
    every relative vector, [cutoff], [alpha] and [beta] by the same
    [s > 0] leaves the returned descriptor unchanged and divides every
    Jacobian entry by [s], with or without normalisation. *)
Theorem descriptor_scale_invariant (s : R) (r : list (vec3 R))
  (cutoff alpha beta : R) (normalized : bool) :
  0 < s -> r <> [] -> 0 < alpha -> beta <> 0 ->
  Forall (fun rj => 0 < norm3 rj < cutoff) r ->
  exists p Q,
    rbf_descriptor r cutoff alpha beta normalized
    = Ok (p, map (map (vmap Fin)) Q) /\
    rbf_descriptor (map (vmap (Rmult s)) r) (s * cutoff) (s * alpha) (s * beta)
      normalized
    = Ok (p, map (map (vmap (fun e => Fin (e / s)))) Q).
Proof.
  intros Hs Hne Ha Hb Hr.
  assert (Hc : 0 < cutoff).
  { destruct r as [|rj r']; [contradiction|]. inversion Hr; subst. lra. }
  assert (Hr' : Forall (fun rj => 0 < norm3 rj < s * cutoff)
                  (map (vmap (Rmult s)) r)).
  { rewrite Forall_map. revert Hr. apply Forall_impl.
    intros rj H. rewrite norm3_scale by assumption. nra. }
  assert (Hne' : map (vmap (Rmult s)) r <> []).
  { intros E. apply map_eq_nil in E. contradiction. }
  assert (Ha' : 0 < s * alpha) by nra.
  assert (Hb' : s * beta <> 0) by nra.
  assert (Hgrid := grid_points_scale s Hs cutoff alpha ltac:(lra)).
  assert (Hp := raw_p_scale s Hs cutoff beta Hb ltac:(lra)).
  set (xs := grid_points cutoff alpha) in *.
  destruct normalized.
  - set (nrm := sqrt (Rsum (map (fun xk => raw_p r cutoff beta xk
                                           * raw_p r cutoff beta xk) xs))).
    exists (map (fun xk => Fin (raw_p r cutoff beta xk / nrm)) xs),
           (map (fun xk => map (unit_q xs (raw_p r cutoff beta)
                                  (raw_q cutoff beta) nrm xk) r) xs).
    split.
    + rewrite (rbf_descriptor_normalized r cutoff alpha beta nrm Hne Ha Hb Hr
                 eq_refl).
      f_equal. f_equal. rewrite map_map. apply map_ext. intros xk.
      now rewrite map_map.
    + assert (Hn : nrm = sqrt (Rsum (map (fun xk =>
                       raw_p (map (vmap (Rmult s)) r) (s * cutoff) (s * beta) xk
                       * raw_p (map (vmap (Rmult s)) r) (s * cutoff) (s * beta) xk)
                       (grid_points (s * cutoff) (s * alpha))))).
      { unfold nrm. rewrite Hgrid, map_map. do 2 f_equal.
        apply map_ext. intros xk. now rewrite Hp. }
      rewrite (rbf_descriptor_normalized _ (s * cutoff) (s * alpha) (s * beta)
                 nrm Hne' Ha' Hb' Hr' Hn).
      rewrite Hgrid, !map_map. f_equal. f_equal.
      * apply map_ext. intros xk. now rewrite Hp.
      * apply map_ext. intros xk. rewrite !map_map.
        apply map_ext_in. intros rj Hrj.
        rewrite (unit_q_scale s Hs cutoff beta Hb ltac:(lra))
          by (rewrite Forall_forall in Hr; specialize (Hr rj Hrj); lra).
        unfold vmap; cbn [vx vy vz]. reflexivity.
  - exists (map (fun xk => Fin (raw_p r cutoff beta xk)) xs),
           (map (fun xk => map (raw_q cutoff beta xk) r) xs).
    split.
    + rewrite rbf_descriptor_raw by (try assumption; lra).
      f_equal. f_equal. rewrite map_map. apply map_ext. intros xk.
      now rewrite map_map.
    + rewrite rbf_descriptor_raw by (try assumption; nra).
      rewrite Hgrid, !map_map. f_equal. f_equal.
      * apply map_ext. intros xk. now rewrite Hp.
      * apply map_ext. intros xk. rewrite !map_map.
        apply map_ext_in. intros rj Hrj.
        rewrite (raw_q_scale s Hs cutoff beta Hb ltac:(lra))
          by (rewrite Forall_forall in Hr; specialize (Hr rj Hrj); lra).
        unfold vmap; cbn [vx vy vz]. reflexivity.
Qed.

Lemma descriptor_scale_invariant_witness :
  (0 < 2 /\ Forall (fun rj => 0 < norm3 rj < 3) sample_r) /\
  exists p Q,
    rbf_descriptor sample_r 3 0.5 0.5 true = Ok (p, map (map (vmap Fin)) Q) /\
    rbf_descriptor (map (vmap (Rmult 2)) sample_r) (2 * 3) (2 * 0.5) (2 * 0.5)
      true
    = Ok (p, map (map (vmap (fun e => Fin (e / 2)))) Q).
Proof.
  assert (H2 : 0 < 2) by lra.
  split; [split; [exact H2|exact sample_r_in_range]|].
  exact (descriptor_scale_invariant 2 sample_r 3 0.5 0.5 true H2
           sample_r_nonempty half_pos half_nonzero sample_r_in_range).
Defined.

(** ** Distances in [[0, cutoff)] and atoms without neighbours *)

Lemma window_spec_pos_closed (d cutoff : R) :
  0 <= d < cutoff -> 0 < window_spec d cutoff.
Proof.
  intros [Hd Hc]. unfold window_spec.
  assert (H : 0 < 1 - d / cutoff).
  { apply Rlt_0_minus. apply Rmult_lt_reg_r with cutoff; [lra|].
    unfold Rdiv. rewrite Rmult_assoc, Rinv_l by lra. lra. }
  apply pow_lt. exact H.
Qed.

Lemma norm3_nonneg (v : vec3 R) : 0 <= norm3 v.
Proof. apply sqrt_pos. Qed.

(** X22: the unit norm does not need positive distances: for a non-empty
    neighbour set with all distances [< cutoff], possibly 0, [alpha > 0]
    and [beta <> 0], the normalised descriptor is finite in every entry
    and has Euclidean norm exactly 1 (only the Jacobian rows of a
    neighbour at distance 0 are NaN). *)
Theorem unit_norm_with_zero_distance (r : list (vec3 R))
  (cutoff alpha beta : R) :
  r <> [] -> 0 < alpha -> beta <> 0 ->
  Forall (fun rj => norm3 rj < cutoff) r ->
  exists p q,
    rbf_descriptor r cutoff alpha beta true = Ok (p, q) /\
    Forall is_finite p /\ xnorm p = Fin 1.
Proof.
  intros Hne Ha Hb Hr.
  assert (Hc : 0 < cutoff).
  { destruct r as [|rj r']; [contradiction|]. inversion Hr; subst.
    pose proof (norm3_nonneg rj). lra. }
  set (xs := grid_points cutoff alpha).
  set (P := raw_p r cutoff beta).
  assert (HP : forall xk, 0 < P xk).
  { intros xk. unfold P, raw_p. apply Rsum_pos; [assumption|].
    intros rj Hin. rewrite Forall_forall in Hr.
    apply Rmult_lt_0_compat; [apply gaussian_spec_pos|].
    apply window_spec_pos_closed. split; [apply norm3_nonneg|now apply Hr]. }
  set (nrm := sqrt (Rsum (map (fun xk => P xk * P xk) xs))).
  assert (Hnrm : 0 < nrm).
  { unfold nrm. apply sqrt_lt_R0. apply Rsum_pos.
    - now apply grid_points_nonempty.
    - intros xk _. pose proof (HP xk). nra. }
  rewrite rbf_descriptor_normalize.
  rewrite rbf_descriptor_entries by (try assumption; lra).
  cbn [bind fst snd].
  assert (Hp0 : map (raw_p_x r cutoff beta) xs = map (fun xk => Fin (P xk)) xs)
    by (apply map_ext; intros xk; apply raw_p_x_Fin; lra).
  fold xs. rewrite Hp0.
  destruct (normalize (length r) (map (fun xk => Fin (P xk)) xs)
              (map (fun xk => map (raw_q_x cutoff beta xk) r) xs))
    as [p q] eqn:E.
  exists p, q. split; [reflexivity|].
  apply (f_equal fst) in E. unfold normalize in E. cbn [fst] in E.
  rewrite xnorm_Fin in E. fold nrm in E. rewrite map_map in E.
  assert (Hp : p = map (fun xk => Fin (P xk / nrm)) xs).
  { rewrite <- E. apply map_ext. intros xk. apply xdiv_Fin. lra. }
  rewrite Hp. split.
  - rewrite Forall_map, Forall_forall. intros xk _. exact I.
  - rewrite xnorm_Fin. f_equal.
    rewrite (unit_norm_sum P xs nrm eq_refl) by lra. apply sqrt_1.
Qed.

Lemma unit_norm_with_zero_distance_witness :
  Forall (fun rj => norm3 rj < 3) [mk3 0 0 0] /\
  exists p q,
    rbf_descriptor [mk3 0 0 0] 3 0.5 0.5 true = Ok (p, q) /\
    Forall is_finite p /\ xnorm p = Fin 1.
Proof.
  assert (Hr : Forall (fun rj => norm3 rj < 3) [mk3 0 0 0]).
  { constructor; [rewrite norm3_zero; lra|constructor]. }
  assert (Hne : [mk3 0 0 0] <> @nil (vec3 R)) by discriminate.
  exact (conj Hr (unit_norm_with_zero_distance [mk3 0 0 0] 3 0.5 0.5
                    Hne half_pos half_nonzero Hr)).
Defined.

Lemma rbf_descriptor_isolated (cutoff alpha beta : R) :
  cutoff <> 0 -> alpha <> 0 ->
  rbf_descriptor [] cutoff alpha beta true
  = Ok (map (fun _ => NaN) (grid_points cutoff alpha),
        map (fun _ => []) (grid_points cutoff alpha)).
Proof.
  intros Hc Ha. rewrite rbf_descriptor_normalize.
  rewrite rbf_descriptor_entries by (try assumption; constructor).
  cbn [bind fst snd map length]. unfold normalize.
  change (map (raw_p_x [] cutoff beta) (grid_points cutoff alpha))
    with (map (fun _ : R => Fin 0) (grid_points cutoff alpha)).
  rewrite xnorm_Fin.
  rewrite Rsum_zero by (intros; ring).
  rewrite sqrt_0, !map_map, !map2_map_map.
  f_equal. f_equal. apply map_ext. intros xk. apply xdiv_zero_zero.
Qed.

(** X23: an atom without neighbours does not make the dataset fail:
    whenever [get_descriptor_data] returns, the entry of such an atom has
    no neighbour index, a descriptor that is NaN at every grid point, and
    Jacobian rows without entries. *)
Theorem isolated_atom_entry
  (get_neighbor_list : Atoms -> R -> nat -> list (nat * vec3 BinNums.Z))
  (atoms : Atoms) (cutoff alpha beta : R) data (i : nat) :
  get_descriptor_data get_neighbor_list atoms cutoff alpha beta = Done data ->
  (i < length (positions atoms))%nat ->
  get_neighbor_list atoms cutoff i = [] ->
  nth i data ([], [], [])
  = ([], map (fun _ => NaN) (grid_points cutoff alpha),
         map (fun _ => []) (grid_points cutoff alpha)).
Proof.
  intros Hdata Hi Hnl. unfold get_descriptor_data in Hdata.
  apply descriptor_loop_Done in Hdata.
  assert (Hentry : descriptor_entry atoms cutoff alpha beta i
                     (get_neighbor_list atoms cutoff i)
                   = Done (nth i data ([], [], []))).
  { pose proof (Forall2_length Hdata) as Hlen. rewrite length_seq in Hlen.
    assert (Hnth : forall (l : list nat) d k (dk : nat),
               Forall2 (fun j x => descriptor_entry atoms cutoff alpha beta j
                                     (get_neighbor_list atoms cutoff j) = Done x)
                       l d ->
               (k < length l)%nat ->
               descriptor_entry atoms cutoff alpha beta (nth k l dk)
                 (get_neighbor_list atoms cutoff (nth k l dk))
               = Done (nth k d ([], [], []))).
    { intros l d k dk H. revert k.
      induction H as [|j x l d Hx _ IH]; intros [|k] Hk; simpl in *; try lia.
      - exact Hx.
      - apply IH. lia. }
    specialize (Hnth _ _ i O Hdata). rewrite length_seq in Hnth.
    specialize (Hnth Hi). now rewrite seq_nth in Hnth. }
  rewrite Hnl in Hentry. unfold descriptor_entry in Hentry.
  cbn [relative_vectors] in Hentry.
  destruct (rbf_descriptor [] cutoff alpha beta true) as [[p q]|e] eqn:E;
    [|discriminate].
  destruct (rbf_descriptor_Ok_inv _ _ _ _ _ _ E) as (_ & Ha & Hc).
  rewrite rbf_descriptor_isolated in E by assumption.
  injection E as <- <-. injection Hentry as <-. reflexivity.
Qed.

Lemma isolated_atom_entry_witness :
  let nl := fun (_ : Atoms) (_ : R) (_ : nat) => @nil (nat * vec3 BinNums.Z) in
  let atoms := mkAtoms [mk3 0 0 0] (mk3 (mk3 5 0 0) (mk3 0 5 0) (mk3 0 0 5)) in
  let data := [(@nil nat, map (fun _ : R => NaN) (grid_points 3 0.5),
                map (fun _ : R => @nil (vec3 xreal)) (grid_points 3 0.5))] in
  (get_descriptor_data nl atoms 3 0.5 0.5 = Done data /\
   (0 < length (positions atoms))%nat /\ nl atoms 3 0%nat = []) /\
  nth 0 data ([], [], [])
  = ([], map (fun _ => NaN) (grid_points 3 0.5),
         map (fun _ => []) (grid_points 3 0.5)).
Proof.
  intros nl atoms data.
  assert (H : get_descriptor_data nl atoms 3 0.5 0.5 = Done data).
  { unfold get_descriptor_data, atoms, nl. cbn [positions length seq].
    cbn [descriptor_loop]. unfold descriptor_entry.
    cbn [relative_vectors map].
    rewrite rbf_descriptor_isolated by lra. reflexivity. }
  assert (Hlen : (0 < length (positions atoms))%nat) by (simpl; lia).
  assert (Hnl : nl atoms 3 0%nat = []) by reflexivity.
  exact (conj (conj H (conj Hlen Hnl))
           (isolated_atom_entry nl atoms 3 0.5 0.5 data 0%nat H Hlen Hnl)).
Defined.
